(** * LolRemez 2D solver (lolremez2d.cpp): shallow embedding and properties

    The arbitrary-precision type [lol::real] is read as the field of real
    numbers of the Standard Library (exact arithmetic, exact equality); the
    program is embedded as state-passing code over the one piece of shared
    mutable state it has, the function-local static cache of
    [solver::eval_f].

    [lol::real] computes in a fixed working precision, and this reading
    leaves its rounding out.  The statements below are about what does not
    depend on it: the control flow, the indices and the capacity of the
    matrix, the cache, the order of the scan, the shape of the grid and the
    expression each function evaluates.  A statement that holds by an exact
    cancellation in the field of the real numbers says so in its comment,
    and is not put forward as a property of the values the program
    returns. *)

From Stdlib Require Import String Ascii DecimalString.
From Stdlib Require Import Reals Lra Lia ZArith List Psatz.
Import ListNotations.
Open Scope bool_scope.
Open Scope R_scope.

(** ** Precision arithmetic (external library [<lol/real>]) *)

(** The values of [lol::real] are read as real numbers and its operations as
    those of the field: rounding is not modelled. *)
Abbreviation real := R (only parsing).

(** What stops a computation: the division error of the arithmetic, and an
    index outside the coefficient matrix (undefined behaviour in C++). *)
Inductive error : Type :=
| DivisionByZero
| OutOfBounds.

Inductive result (A : Type) : Type :=
| Ok (a : A)
| Err (e : error).
Arguments Ok {A} a.
Arguments Err {A} e.

Definition rbind {A B : Type} (m : result A) (k : A -> result B) : result B :=
  match m with
  | Ok a => k a
  | Err e => Err e
  end.

Notation "x <-! m ;; k" := (rbind m (fun x => k))
  (at level 61, m at next level, right associativity).

(** Modelled from the spec: the division operator of the external type
    [lol::real] is not in the sources; the specification gives it as failing
    with a division error on a divisor that is exactly zero. *)
Definition real_div (a b : real) : result real :=
  if Req_dec_T b 0 then Err DivisionByZero else Ok (a / b).

(** [operator bool] of a real: true when the value is not zero. *)
Definition real_nonzero (a : real) : bool :=
  if Req_dec_T a 0 then false else true.

(** [operator==] on reals. *)
Definition real_eqb (a b : real) : bool :=
  if Req_dec_T a b then true else false.

Definition fabs (a : real) : real := Rabs a.

(** [real("0.999999999999999")] *)
Definition lit_0_999999999999999 : real := 999999999999999 / 1000000000000000.

(** ** struct real2 *)

Module real2.
Record real2 : Type := make { x : real; y : real }.
End real2.
Abbreviation real2 := real2.real2.

(** ** The target function [f] *)

(** [sin], [acos] and [sqrt] are the functions of the Standard Library,
    which are total.  For [-3 <= y <= 1] the argument [d] lies in the domain
    [[-1, 1]] of [acos] and [1 - d * d] is not negative; outside this range
    the value the library gives is a convention of its own, and what holds
    there is a fact of this reading only. *)
Definition f (x y : real) : result real :=
  let one := 1 in
  f_ <-! real_div (x + one) 2 ;;
  d <-! real_div (y + one) 2 ;;
  real_div (sin ((one - f_) * acos d)) (sqrt (one - d * d)).

(** ** The process state: the static cache of [eval_f]

    [cache] is the function-local [static std::vector<std::array<real, 3>>]
    of [solver::eval_f]; being static, there is one per process, whatever the
    number of solver objects.  [f_calls] is a ghost log of the coordinate
    pairs at which [f] itself has been applied, in order. *)

Record world : Type := mk_world {
  cache : list (real * real * real);
  f_calls : list (real * real)
}.

Definition world_init : world := {| cache := []; f_calls := [] |}.

Definition M (A : Type) : Type := world -> result (A * world).

Definition ret {A : Type} (a : A) : M A := fun w => Ok (a, w).

Definition bind {A B : Type} (m : M A) (k : A -> M B) : M B :=
  fun w => match m w with
           | Ok (a, w') => k a w'
           | Err e => Err e
           end.

Definition lift {A : Type} (r : result A) : M A :=
  fun w => match r with
           | Ok a => Ok (a, w)
           | Err e => Err e
           end.

Notation "x <- m ;; k" := (bind m (fun x => k))
  (at level 61, m at next level, right associativity).
Notation "' pat <- m ;; k" := (bind m (fun x => match x with pat => k end))
  (at level 61, pat pattern, m at next level, right associativity).

(** [for (size_t i = 0; i < n; ++i) body]: the loop state is threaded
    through the iterations [0], [1], ..., [n - 1] in this order. *)
Fixpoint for_n {S : Type} (n : nat) (body : nat -> S -> M S) (acc : S) : M S :=
  match n with
  | O => ret acc
  | Datatypes.S n' => a <- for_n n' body acc ;; body n' a
  end.

(** [for (auto const &v : l) body] *)
Fixpoint for_each {A S : Type} (l : list A) (body : A -> S -> M S) (acc : S)
  : M S :=
  match l with
  | [] => ret acc
  | a :: l' => s <- body a acc ;; for_each l' body s
  end.

(** ** array2d<real> and std::vector<real> *)

(** Modelled from the spec: [matrix.h], which declares [array2d], is not in
    the sources.  The coefficient structure is a fixed-capacity 2D array
    indexed by plain integer coordinates, [m[j][i]] being row [j], column
    [i]; it is never resized.  [operator[]] is unchecked in C++: an index
    outside the dimensions is reported here as [OutOfBounds]. *)
Record array2d : Type := mk_array2d {
  a_cols : nat;
  a_rows : nat;
  a_data : list (list real)
}.

Definition array2d_new (cols rows : nat) : array2d :=
  {| a_cols := cols; a_rows := rows;
     a_data := repeat (repeat 0 cols) rows |}.

(** Pure read, [0] outside the stored cells. *)
Definition mat (m : array2d) (j i : nat) : real :=
  nth i (nth j (a_data m) []) 0.

Fixpoint vec_set (l : list real) (i : nat) (v : real) : list real :=
  match l, i with
  | [], _ => []
  | _ :: l', O => v :: l'
  | a :: l', Datatypes.S i' => a :: vec_set l' i' v
  end.

Fixpoint rows_set (d : list (list real)) (j i : nat) (v : real)
  : list (list real) :=
  match d, j with
  | [], _ => []
  | r :: d', O => vec_set r i v :: d'
  | r :: d', Datatypes.S j' => r :: rows_set d' j' i v
  end.

Definition in_bounds (m : array2d) (j i : nat) : bool :=
  (j <? a_rows m)%nat && (i <? a_cols m)%nat.

Definition array2d_get (m : array2d) (j i : nat) : result real :=
  if in_bounds m j i then Ok (mat m j i) else Err OutOfBounds.

Definition array2d_set (m : array2d) (j i : nat) (v : real) : result array2d :=
  if in_bounds m j i
  then Ok {| a_cols := a_cols m; a_rows := a_rows m;
             a_data := rows_set (a_data m) j i v |}
  else Err OutOfBounds.

(** [v[i] += t] on a [std::vector<real>]; the callers index below the size
    they have just resized the vector to. *)
Definition vec_add (l : list real) (i : nat) (t : real) : list real :=
  vec_set l i (nth i l 0 + t).

(** ** struct solver *)

Record solver : Type := mk_solver {
  m_grid_size : Z;
  m_iters : Z;
  m_ek : array2d;
  m_coeff : list real;
  m_pivots : list real2
}.

Definition pivot (s : solver) (i : nat) : real2 :=
  nth i (m_pivots s) (real2.make 0 0).

(** [solver::cheb] *)
Definition cheb (i n : Z) : result real :=
  t <-! real_div (PI * IZR i) (IZR n) ;;
  Ok (- cos t * lit_0_999999999999999).

(** The constructor's loop [for (int i = 0; i <= grid_size; ++i)
    m_coeff.push_back(cheb(i, grid_size))]. *)
Fixpoint push_nodes (count : nat) (grid_size : Z) : result (list real) :=
  match count with
  | O => Ok []
  | Datatypes.S c =>
      l <-! push_nodes c grid_size ;;
      v <-! cheb (Z.of_nat c) grid_size ;;
      Ok (l ++ [v])
  end.

(** [solver::solver(int grid_size, int iters)].  It neither reads nor writes
    the cache.  [m_ek(iters, iters)] holds default-constructed, that is zero,
    reals.  The dimensions of the matrix are sizes: [Z.to_nat] is the
    conversion of an [iters] that is not negative, and nothing is stated
    about a negative one ([params_ok] below). *)
Definition solver_new (grid_size iters : Z) : result solver :=
  coeff <-! push_nodes (Z.to_nat (grid_size + 1)) grid_size ;;
  Ok {| m_grid_size := grid_size;
        m_iters := iters;
        m_ek := array2d_new (Z.to_nat iters) (Z.to_nat iters);
        m_coeff := coeff;
        m_pivots := [] |}.

(** [solver::eval_f].  The object [self] is not used: the cache is a static
    local of the member function. *)
Fixpoint cache_find (x y : real) (c : list (real * real * real))
  : option real :=
  match c with
  | [] => None
  | (v0, v1, v2) :: c' =>
      if real_eqb x v0 && real_eqb y v1 then Some v2 else cache_find x y c'
  end.

Definition call_f (x y : real) : M real :=
  fun w => match f x y with
           | Ok v => Ok (v, {| cache := cache w;
                               f_calls := f_calls w ++ [(x, y)] |})
           | Err e => Err e
           end.

Definition cache_push (x y v : real) : M real :=
  fun w => Ok (v, {| cache := cache w ++ [(x, y, v)];
                     f_calls := f_calls w |}).

Definition eval_f (self : solver) (x y : real) : M real :=
  fun w => match cache_find x y (cache w) with
           | Some v => Ok (v, w)
           | None => (v <- call_f x y ;; cache_push x y v) w
           end.

(** [solver::eval_ek].  The two [eval_f] calls of the product are taken left
    to right. *)
Definition eval_ek (self : solver) (x y : real) : M real :=
  ret0 <- eval_f self x y ;;
  for_n (length (m_pivots self)) (fun i ret1 =>
    for_n (length (m_pivots self)) (fun j ret2 =>
      m <- lift (array2d_get (m_ek self) j i) ;;
      if real_nonzero m then
        a <- eval_f self (real2.x (pivot self i)) y ;;
        b <- eval_f self x (real2.y (pivot self j)) ;;
        ret (ret2 + m * a * b)
      else ret ret2) ret1) ret0.

(** The pivot search of [solver::step] (lines 56 to 69). *)
Definition scan_body (self : solver) (y x : real) (best : real2 * real)
  : M (real2 * real) :=
  res <- eval_ek self x y ;;
  if Rge_dec (fabs res) (fabs (snd best))
  then ret (real2.make x y, res)
  else ret best.

Definition find_pivot (self : solver) : M (real2 * real) :=
  for_each (m_coeff self) (fun y best =>
    for_each (m_coeff self) (fun x best' => scan_body self y x best') best)
    (real2.make 0 0, 0).

(** The cross vectors [ek_x], [ek_y] of [solver::step] (lines 76 to 87). *)
Definition cross_body (self : solver) (best_pivot : real2) (i j : nat)
  (v : list real * list real) : M (list real * list real) :=
  m <- lift (array2d_get (m_ek self) j i) ;;
  if real_nonzero m then
    a <- eval_f self (real2.x (pivot self i)) (real2.y best_pivot) ;;
    let ek_x := vec_add (fst v) j (m * a) in
    m' <- lift (array2d_get (m_ek self) j i) ;;
    b <- eval_f self (real2.x best_pivot) (real2.y (pivot self j)) ;;
    let ek_y := vec_add (snd v) i (m' * b) in
    ret (ek_x, ek_y)
  else ret v.

Definition cross_vectors (self : solver) (best_pivot : real2)
  : M (list real * list real) :=
  let size := length (m_pivots self) in
  let ek_x := repeat 0 (size + 1)%nat in
  let ek_y := repeat 0 (size + 1)%nat in
  v <- for_n size (fun i v1 =>
         for_n size (fun j v2 => cross_body self best_pivot i j v2) v1)
       (ek_x, ek_y) ;;
  ret (vec_set (fst v) size 1, vec_set (snd v) size 1).

(** The coefficient update of [solver::step] (lines 89 to 92). *)
Definition update_body (ek_x ek_y : list real) (dk : real) (i j : nat)
  (m : array2d) : M array2d :=
  old <- lift (array2d_get m j i) ;;
  lift (array2d_set m j i (old - nth i ek_y 0 * nth j ek_x 0 * dk)).

Definition update_ek (size : nat) (ek_x ek_y : list real) (dk : real)
  (m : array2d) : M array2d :=
  for_n (size + 1) (fun i m1 =>
    for_n (size + 1) (fun j m2 => update_body ek_x ek_y dk i j m2) m1) m.

(** [solver::step] *)
Definition step (self : solver) : M solver :=
  '(best_pivot, best_val) <- find_pivot self ;;
  dk <- lift (real_div 1 best_val) ;;
  '(ek_x, ek_y) <- cross_vectors self best_pivot ;;
  ek <- update_ek (length (m_pivots self)) ek_x ek_y dk (m_ek self) ;;
  ret {| m_grid_size := m_grid_size self;
         m_iters := m_iters self;
         m_ek := ek;
         m_coeff := m_coeff self;
         m_pivots := m_pivots self ++ [best_pivot] |}.

(** ** solver::dump_gnuplot *)

Definition nl : String.string :=
  String.String (Ascii.ascii_of_nat 10) String.EmptyString.

(** [operator<<] on an [int] and on a [size_t]. *)
Definition print_int (n : Z) : String.string :=
  DecimalString.NilZero.string_of_int (Z.to_int n).

Definition print_size (n : nat) : String.string :=
  DecimalString.NilZero.string_of_uint (Nat.to_uint n).

Section Emitter.

(** [operator<<] on a [real] under [std::setprecision(20)], of the external
    library. *)
Variable print_real : real -> String.string.

(** The body of the loop over the pivots: what it appends to [std::cout]. *)
Definition dump_pivot (self : solver) (n : Z) (out : String.string)
  : String.string :=
  (out
   ++ "x" ++ print_int (n + 1) ++ "="
   ++ print_real (real2.x (pivot self (Z.to_nat n))) ++ nl
   ++ "y" ++ print_int (n + 1) ++ "="
   ++ print_real (real2.y (pivot self (Z.to_nat n))) ++ nl
   ++ "d" ++ print_int (n + 1) ++ "=e" ++ print_int n
   ++ "(x" ++ print_int (n + 1) ++ ",y" ++ print_int (n + 1) ++ ")" ++ nl
   ++ "e" ++ print_int (n + 1) ++ "(x,y)=e" ++ print_int n
   ++ "(x,y)-e" ++ print_int n ++ "(x" ++ print_int (n + 1)
   ++ ",y)*e" ++ print_int n ++ "(x,y" ++ print_int (n + 1)
   ++ ")/d" ++ print_int (n + 1) ++ nl)%string.

Fixpoint dump_loop (self : solver) (count : nat) (out : String.string)
  : String.string :=
  match count with
  | O => out
  | Datatypes.S c => dump_pivot self (Z.of_nat c) (dump_loop self c out)
  end.

(** The text written to [std::cout]. *)
Definition dump_gnuplot (self : solver) : String.string :=
  let out :=
    ("f(x,y)=sin((1-x)/2*acos((1+y)/2))/sqrt(1-((y+1)/2)**2)" ++ nl)%string in
  let out := (out ++ "e0(x,y)=f(x,y)" ++ nl)%string in
  let out := dump_loop self (length (m_pivots self)) out in
  (out ++ "splot [-1:1][-1:1] e" ++ print_size (length (m_pivots self))
   ++ "(x,y)" ++ nl)%string.

End Emitter.

(** ** main *)

Section Main.

Variable print_real : real -> string.

(** [for (int n = 0; n < iters; ++n) s.step();] *)
Definition run_steps (iters : Z) (s : solver) : M solver :=
  for_n (Z.to_nat iters) (fun _ s0 => step s0) s.

(** [main]: the text written to [std::cout] stands for the run. *)
Definition main : M string :=
  let grid_size := 33%Z in
  let iters := 6%Z in
  s <- lift (solver_new grid_size iters) ;;
  s' <- run_steps iters s ;;
  ret (dump_gnuplot print_real s').

End Main.

(** * Specification vocabulary *)

(** ** The target function as a real-valued expression *)

(** The expression of [f], with the total division of [R]; [f] returns it
    wherever [f] is defined ([f_defined] below). *)
Definition fval (x y : R) : R :=
  sin ((1 - (x + 1) / 2) * acos ((y + 1) / 2))
  / sqrt (1 - (y + 1) / 2 * ((y + 1) / 2)).

(** [f] is defined at [(x, y)] when its square-root term is not zero. *)
Definition f_dom (y : R) : Prop :=
  sqrt (1 - (y + 1) / 2 * ((y + 1) / 2)) <> 0.

(** The node formula of [cheb], with the total division of [R]. *)
Definition cheb_val (i n : Z) : R :=
  - cos (PI * IZR i / IZR n) * lit_0_999999999999999.

(** ** Cache consistency and total runs *)

Definition key (e : real * real * real) : real * real :=
  (fst (fst e), snd (fst e)).

(** Every cached triple holds the value of [f] at its coordinates, the
    cached coordinates are exactly the points where [f] was applied, and no
    point occurs twice. *)
Definition cache_ok (w : world) : Prop :=
  (forall x y v, In (x, y, v) (cache w) -> f x y = Ok v) /\
  map key (cache w) = f_calls w /\
  NoDup (f_calls w).

Definition extends (w w' : world) : Prop :=
  (exists l, cache w' = cache w ++ l) /\
  (exists l, f_calls w' = f_calls w ++ l).

(** [runs m w P]: from the consistent world [w] the computation [m] returns
    normally, in a consistent world that extends [w], with [P]. *)
Definition runs {A : Type} (m : M A) (w : world) (P : A -> world -> Prop)
  : Prop :=
  exists a w', m w = Ok (a, w') /\ cache_ok w' /\ extends w w' /\ P a w'.

Fixpoint iter_n {S : Type} (n : nat) (g : nat -> S -> S) (acc : S) : S :=
  match n with
  | O => acc
  | Datatypes.S n' => g n' (iter_n n' g acc)
  end.

(** [sum_n n g] is the sum of [g 0], ..., [g (n - 1)]. *)
Fixpoint sum_n (n : nat) (g : nat -> R) : R :=
  match n with
  | O => 0
  | Datatypes.S n' => sum_n n' g + g n'
  end.

(** ** Solver states *)

Definition array2d_wf (n : nat) (m : array2d) : Prop :=
  a_rows m = n /\ a_cols m = n /\
  length (a_data m) = n /\ Forall (fun r => length r = n) (a_data m).

(** The error function [e_k] of the data model: the implicit [f] plus the
    double sum over the pivots, every matrix entry counted. *)
Definition residual (s : solver) (x y : R) : R :=
  fval x y +
  sum_n (length (m_pivots s)) (fun i =>
    sum_n (length (m_pivots s)) (fun j =>
      mat (m_ek s) j i * fval (real2.x (pivot s i)) y
      * fval x (real2.y (pivot s j)))).

(** The candidate pairs in the order of the scan: [y] outer, [x] inner. *)
Definition scan_pairs (s : solver) : list (R * R) :=
  flat_map (fun y => map (fun x => (x, y)) (m_coeff s)) (m_coeff s).

Record solver_ok (grid_size iters : Z) (k : nat) (s : solver) : Prop := {
  ok_grid_size : m_grid_size s = grid_size;
  ok_iters : m_iters s = iters;
  ok_coeff : push_nodes (Z.to_nat (grid_size + 1)) grid_size = Ok (m_coeff s);
  ok_size : length (m_pivots s) = k;
  ok_capacity : (k <= Z.to_nat iters)%nat;
  ok_matrix : array2d_wf (Z.to_nat iters) (m_ek s);
  ok_unused : forall j i, (k <= i \/ k <= j)%nat -> mat (m_ek s) j i = 0;
  ok_pivots : forall p, In p (m_pivots s) ->
                        In (real2.x p) (m_coeff s) /\ In (real2.y p) (m_coeff s)
}.

(** One comparison of the pivot search, on the value of the error function. *)
Definition better (s : solver) (best : real2 * R) (q : R * R) : real2 * R :=
  if Rge_dec (fabs (residual s (fst q) (snd q))) (fabs (snd best))
  then (real2.make (fst q) (snd q), residual s (fst q) (snd q))
  else best.

(** The pivot search as a fold over the candidate pairs. *)
Definition scan (s : solver) : real2 * R :=
  fold_left (better s) (scan_pairs s) (real2.make 0 0, 0).

(** The cross vectors of a step at pivot [p], entry by entry: the slot
    [length (m_pivots s)] holds the implicit [f] term. *)
Definition ek_x_val (s : solver) (p : real2) (j : nat) : R :=
  if (j <? length (m_pivots s))%nat
  then sum_n (length (m_pivots s)) (fun i =>
         mat (m_ek s) j i * fval (real2.x (pivot s i)) (real2.y p))
  else 1.

Definition ek_y_val (s : solver) (p : real2) (i : nat) : R :=
  if (i <? length (m_pivots s))%nat
  then sum_n (length (m_pivots s)) (fun j =>
         mat (m_ek s) j i * fval (real2.x p) (real2.y (pivot s j)))
  else 1.

(** What a successful step leaves behind. *)
Definition step_post (s : solver) (p : real2) (v : R) (s' : solver) : Prop :=
  m_grid_size s' = m_grid_size s /\
  m_iters s' = m_iters s /\
  m_coeff s' = m_coeff s /\
  m_pivots s' = m_pivots s ++ [p] /\
  a_rows (m_ek s') = a_rows (m_ek s) /\
  a_cols (m_ek s') = a_cols (m_ek s) /\
  forall j i,
    mat (m_ek s') j i
    = if (i <=? length (m_pivots s))%nat && (j <=? length (m_pivots s))%nat
      then mat (m_ek s) j i - ek_y_val s p i * ek_x_val s p j * (1 / v)
      else mat (m_ek s) j i.

(** What the constructor builds when the grid has at least two nodes. *)
Definition initial_solver (grid_size iters : Z) : solver :=
  {| m_grid_size := grid_size;
     m_iters := iters;
     m_ek := array2d_new (Z.to_nat iters) (Z.to_nat iters);
     m_coeff := map (fun i => cheb_val (Z.of_nat i) grid_size)
                    (seq 0 (Z.to_nat (grid_size + 1)));
     m_pivots := [] |}.

(** ** Reachable states *)

(** The constructor arguments are [int]s.  The counter of the constructor's
    loop stays below [INT_MAX] and [iters] is a size. *)
Definition INT_MAX : Z := 2147483647.

Definition params_ok (grid_size iters : Z) : Prop :=
  (- INT_MAX - 1 <= grid_size < INT_MAX)%Z /\ (0 <= iters <= INT_MAX)%Z.

(** The cache changes through [eval_f] only, whichever solver object the
    call goes through; the process starts with an empty cache. *)
Inductive world_reach : world -> Prop :=
| wr_init : world_reach world_init
| wr_eval_f (self : solver) (x y v : R) (w w' : world) :
    world_reach w -> eval_f self x y w = Ok (v, w') -> world_reach w'.

(** [reach grid_size iters k s w]: the solver object [s] was constructed
    with [solver(grid_size, iters)], has completed [k] steps, and the process
    cache is [w]. *)
Inductive reach (grid_size iters : Z) : nat -> solver -> world -> Prop :=
| reach_new (s : solver) (w : world) :
    params_ok grid_size iters ->
    solver_new grid_size iters = Ok s -> world_reach w ->
    reach grid_size iters O s w
| reach_eval_f (k : nat) (s self : solver) (x y v : R) (w w' : world) :
    reach grid_size iters k s w -> eval_f self x y w = Ok (v, w') ->
    reach grid_size iters k s w'
| reach_eval_ek (k : nat) (s : solver) (x y v : R) (w w' : world) :
    reach grid_size iters k s w -> eval_ek s x y w = Ok (v, w') ->
    reach grid_size iters k s w'
| reach_step (k : nat) (s s' : solver) (w w' : world) :
    reach grid_size iters k s w -> step s w = Ok (s', w') ->
    reach grid_size iters (Datatypes.S k) s' w'.

(** [world_from w0 w]: the cache [w] is obtained from [w0] by further calls
    of [eval_f]. *)
Inductive world_from (w0 : world) : world -> Prop :=
| wf_here : world_from w0 w0
| wf_eval_f (self : solver) (x y v : R) (w w' : world) :
    world_from w0 w -> eval_f self x y w = Ok (v, w') -> world_from w0 w'.

(** ** The emitted text, as the specification words it *)

Section EmitterSpec.

Variable print_real : R -> String.string.

Definition f_line : String.string :=
  ("f(x,y)=sin((1-x)/2*acos((1+y)/2))/sqrt(1-((y+1)/2)**2)" ++ nl)%string.

Definition e0_line : String.string := ("e0(x,y)=f(x,y)" ++ nl)%string.

(** The four statements of the pivot of rank [n], counted from 1. *)
Definition pivot_block (n : nat) (p : real2) : String.string :=
  let this := print_int (Z.of_nat n) in
  let prev := print_int (Z.of_nat n - 1) in
  (("x" ++ this ++ "=" ++ print_real (real2.x p) ++ nl)
   ++ ("y" ++ this ++ "=" ++ print_real (real2.y p) ++ nl)
   ++ ("d" ++ this ++ "=e" ++ prev ++ "(x" ++ this ++ ",y" ++ this ++ ")" ++ nl)
   ++ ("e" ++ this ++ "(x,y)=e" ++ prev ++ "(x,y)-e" ++ prev
       ++ "(x" ++ this ++ ",y)*e" ++ prev ++ "(x,y" ++ this
       ++ ")/d" ++ this ++ nl))%string.

Fixpoint pivot_blocks (n : nat) (l : list real2) : String.string :=
  match l with
  | [] => String.EmptyString
  | p :: l' => (pivot_block n p ++ pivot_blocks (Datatypes.S n) l')%string
  end.

Definition splot_line (L : nat) : String.string :=
  ("splot [-1:1][-1:1] e" ++ print_size L ++ "(x,y)" ++ nl)%string.

Definition emitted (pivots : list real2) : String.string :=
  (f_line ++ e0_line ++ pivot_blocks 1 pivots
   ++ splot_line (length pivots))%string.

End EmitterSpec.

(** ** Runs of the driver and the footprint of a computation *)

(** [stepped grid_size iters k s w]: the state of a process that has
    constructed one solver and called [step] on it [k] times, as [main]
    does, starting from the empty cache. *)
Inductive stepped (grid_size iters : Z) : nat -> solver -> world -> Prop :=
| stepped_new (s : solver) :
    params_ok grid_size iters ->
    solver_new grid_size iters = Ok s ->
    stepped grid_size iters O s world_init
| stepped_step (k : nat) (s s' : solver) (w w' : world) :
    stepped grid_size iters k s w -> step s w = Ok (s', w') ->
    stepped grid_size iters (Datatypes.S k) s' w'.

(** Every point at which [f] has been applied by [w'] was applied by [w]
    already or lies in [G]. *)
Definition calls_within (G : R * R -> Prop) (w w' : world) : Prop :=
  forall q, In q (f_calls w') -> In q (f_calls w) \/ G q.

(** A computation that applies [f] at points of [G] only. *)
Definition confined {A : Type} (G : R * R -> Prop) (m : M A) : Prop :=
  forall w a w', m w = Ok (a, w') -> calls_within G w w'.

(** * Properties *)

Lemma real_div_ok (a b : R) : b <> 0 -> real_div a b = Ok (a / b).
Proof.
  intros Hb. unfold real_div. destruct (Req_dec_T b 0); [contradiction | reflexivity].
Qed.

Lemma real_div_zero (a : R) : real_div a 0 = Err DivisionByZero.
Proof.
  unfold real_div. destruct (Req_dec_T 0 0) as [_ | H]; [reflexivity | now elim H].
Qed.

Lemma real_div_inv (a b : R) (r : result R) :
  real_div a b = r ->
  (b = 0 /\ r = Err DivisionByZero) \/ (b <> 0 /\ r = Ok (a / b)).
Proof.
  unfold real_div. destruct (Req_dec_T b 0); intros <-; auto.
Qed.

Lemma real_nonzero_false (a : R) : real_nonzero a = false -> a = 0.
Proof.
  unfold real_nonzero. destruct (Req_dec_T a 0); [auto | discriminate].
Qed.

Lemma f_defined (x y : R) : f_dom y -> f x y = Ok (fval x y).
Proof.
  intros Hd. unfold f, fval.
  rewrite !real_div_ok by lra. cbn [rbind].
  rewrite real_div_ok by exact Hd. reflexivity.
Qed.

Lemma f_undefined (x y : R) : ~ f_dom y -> f x y = Err DivisionByZero.
Proof.
  intros Hd. unfold f.
  rewrite !real_div_ok by lra. cbn [rbind].
  unfold real_div.
  destruct (Req_dec_T (sqrt (1 - (y + 1) / 2 * ((y + 1) / 2))) 0) as [_ | H].
  - reflexivity.
  - elim Hd. exact H.
Qed.

Lemma f_Ok_inv (x y v : R) : f x y = Ok v -> f_dom y /\ v = fval x y.
Proof.
  intros H.
  destruct (Req_dec_T (sqrt (1 - (y + 1) / 2 * ((y + 1) / 2))) 0) as [E | E].
  - rewrite f_undefined in H; [discriminate | ].
    intros Hd. apply Hd. exact E.
  - rewrite (f_defined x y E) in H. injection H as <-. split; [exact E | reflexivity].
Qed.

Lemma f_dom_open (y : R) : -1 < y < 1 -> f_dom y.
Proof.
  intros Hy. unfold f_dom.
  apply Rgt_not_eq. apply sqrt_lt_R0. nra.
Qed.

Lemma fval_pos (x y : R) : -1 < x < 1 -> -1 < y < 1 -> 0 < fval x y.
Proof.
  intros Hx Hy. unfold fval.
  apply Rdiv_lt_0_compat.
  - destruct (acos_bound_lt ((y + 1) / 2)) as [Ha Hb]; [lra | ].
    apply sin_gt_0; nra.
  - apply sqrt_lt_R0. nra.
Qed.

(** ** Rules for total runs *)

Lemma extends_refl (w : world) : extends w w.
Proof. split; exists []; now rewrite app_nil_r. Qed.

Lemma extends_trans (w1 w2 w3 : world) :
  extends w1 w2 -> extends w2 w3 -> extends w1 w3.
Proof.
  intros [[a Ha] [b Hb]] [[c Hc] [d Hd]]. split.
  - exists (a ++ c). now rewrite Hc, Ha, app_assoc.
  - exists (b ++ d). now rewrite Hd, Hb, app_assoc.
Qed.

Lemma extends_calls (w w' : world) (q : real * real) :
  extends w w' -> In q (f_calls w) -> In q (f_calls w').
Proof.
  intros [_ [l Hl]] Hq. rewrite Hl. apply in_or_app. now left.
Qed.

Lemma runs_intro {A : Type} (m : M A) (w w' : world) (a : A)
  (P : A -> world -> Prop) :
  m w = Ok (a, w') -> cache_ok w' -> extends w w' -> P a w' -> runs m w P.
Proof. intros. exists a, w'. auto. Qed.

Lemma runs_ret {A : Type} (a : A) (w : world) (P : A -> world -> Prop) :
  cache_ok w -> P a w -> runs (ret a) w P.
Proof.
  intros Hw HP. apply (runs_intro _ w w a); auto using extends_refl.
Qed.

Lemma runs_bind {A B : Type} (m : M A) (k : A -> M B) (w : world)
  (Q : A -> world -> Prop) (P : B -> world -> Prop) :
  runs m w Q ->
  (forall a w', cache_ok w' -> extends w w' -> Q a w' -> runs (k a) w' P) ->
  runs (bind m k) w P.
Proof.
  intros (a & w1 & E1 & Hok1 & Hex1 & HQ) Hk.
  destruct (Hk a w1 Hok1 Hex1 HQ) as (b & w2 & E2 & Hok2 & Hex2 & HP).
  apply (runs_intro _ w w2 b); eauto using extends_trans.
  unfold bind. now rewrite E1.
Qed.

Lemma runs_weaken {A : Type} (m : M A) (w : world)
  (P Q : A -> world -> Prop) :
  runs m w P ->
  (forall a w', cache_ok w' -> extends w w' -> P a w' -> Q a w') ->
  runs m w Q.
Proof.
  intros (a & w1 & E1 & Hok1 & Hex1 & HP) H.
  apply (runs_intro _ w w1 a); auto.
Qed.

Lemma runs_lift {A : Type} (r : result A) (a : A) (w : world)
  (P : A -> world -> Prop) :
  r = Ok a -> cache_ok w -> P a w -> runs (lift r) w P.
Proof.
  intros -> Hw HP. apply (runs_intro _ w w a); auto using extends_refl.
Qed.

Lemma runs_for_n {S : Type} (n : nat) (body : nat -> S -> M S)
  (I : nat -> S -> world -> Prop) (acc : S) (w : world) :
  cache_ok w -> I O acc w ->
  (forall i a w', (i < n)%nat -> cache_ok w' -> extends w w' -> I i a w' ->
                  runs (body i a) w' (I (Datatypes.S i))) ->
  runs (for_n n body acc) w (I n).
Proof.
  intros Hw H0 Hstep. induction n as [| n IH]; cbn [for_n].
  - now apply runs_ret.
  - eapply runs_bind.
    + apply IH. intros i a w' Hi. apply Hstep. lia.
    + intros a w' Hok Hex Ha. apply Hstep; auto.
Qed.

Lemma runs_for_n_pure {S : Type} (n : nat) (body : nat -> S -> M S)
  (g : nat -> S -> S) (acc : S) (w : world) :
  cache_ok w ->
  (forall i a w', (i < n)%nat -> cache_ok w' -> extends w w' ->
                  runs (body i a) w' (fun r _ => r = g i a)) ->
  runs (for_n n body acc) w (fun r _ => r = iter_n n g acc).
Proof.
  intros Hw Hstep.
  apply (runs_for_n n body (fun i a _ => a = iter_n i g acc)); auto.
  intros i a w' Hi Hok Hex ->. cbn [iter_n]. now apply Hstep.
Qed.

Lemma runs_for_each {A S : Type} (l : list A) (body : A -> S -> M S)
  (I : list A -> S -> world -> Prop) (acc : S) (w : world) :
  cache_ok w -> I [] acc w ->
  (forall pre a post s w', l = pre ++ a :: post -> cache_ok w' ->
                           extends w w' -> I pre s w' ->
                           runs (body a s) w' (I (pre ++ [a]))) ->
  runs (for_each l body acc) w (I l).
Proof.
  revert I acc w. induction l as [| a l IH]; intros I acc w Hw H0 Hstep;
    cbn [for_each].
  - now apply runs_ret.
  - eapply runs_bind.
    + apply (Hstep [] a l acc w eq_refl Hw (extends_refl w) H0).
    + cbn [app]. intros s w' Hok Hex Hs.
      apply (IH (fun pre => I (a :: pre))); auto.
      intros pre b post s' w'' -> Hok' Hex' Hpre.
      apply (Hstep (a :: pre) b post); auto.
      eapply extends_trans; eauto.
Qed.

(** ** The memoised evaluation *)

Lemma cache_find_some (x y v : R) (c : list (real * real * real)) :
  cache_find x y c = Some v -> In (x, y, v) c.
Proof.
  induction c as [| [[v0 v1] v2] c IH]; cbn [cache_find]; [discriminate | ].
  unfold real_eqb.
  destruct (Req_dec_T x v0) as [-> | ], (Req_dec_T y v1) as [-> | ]; cbn [andb];
    intros H; try (right; now apply IH).
  injection H as ->. now left.
Qed.

Lemma cache_find_none (x y : R) (c : list (real * real * real)) :
  cache_find x y c = None -> ~ In (x, y) (map key c).
Proof.
  induction c as [| [[v0 v1] v2] c IH]; cbn [cache_find map]; [auto | ].
  unfold real_eqb, key at 1. cbn [fst snd].
  destruct (Req_dec_T x v0) as [-> | Nx], (Req_dec_T y v1) as [-> | Ny];
    cbn [andb]; intros H; try discriminate;
    intros [E | E]; try (now apply IH); injection E; intros; subst; auto.
Qed.

Lemma cache_ok_init : cache_ok world_init.
Proof.
  repeat split; cbn; [tauto | constructor].
Qed.

Lemma eval_f_hit (self : solver) (x y : R) (w : world) :
  In (x, y) (f_calls w) -> cache_ok w ->
  exists v, eval_f self x y w = Ok (v, w) /\ f x y = Ok v.
Proof.
  intros Hin (Hval & Hkeys & Hnd). unfold eval_f.
  destruct (cache_find x y (cache w)) as [v | ] eqn:E.
  - exists v. split; [reflexivity | ]. apply Hval. now apply cache_find_some.
  - apply cache_find_none in E. rewrite Hkeys in E. contradiction.
Qed.

Lemma eval_f_runs (self : solver) (x y : R) (w : world) :
  cache_ok w -> f_dom y ->
  runs (eval_f self x y) w (fun v w' => v = fval x y /\ In (x, y) (f_calls w')).
Proof.
  intros Hw Hd. pose proof Hw as (Hval & Hkeys & Hnd). unfold runs, eval_f.
  destruct (cache_find x y (cache w)) as [v | ] eqn:E.
  - apply cache_find_some in E.
    pose proof (Hval _ _ _ E) as Hf. rewrite (f_defined x y Hd) in Hf.
    injection Hf as <-.
    exists (fval x y), w.
    split; [reflexivity | split; [exact Hw | split; [apply extends_refl | ]]].
    split; [reflexivity | ].
    rewrite <- Hkeys. change (x, y) with (key (x, y, fval x y)). now apply in_map.
  - apply cache_find_none in E. rewrite Hkeys in E.
    unfold bind, call_f, cache_push. rewrite (f_defined x y Hd). cbn [cache f_calls].
    eexists _, _. split; [reflexivity | ].
    unfold cache_ok, extends. cbn [cache f_calls].
    repeat split.
    + intros x' y' v' Hin. apply in_app_or in Hin as [Hin | [Hin | []]].
      * now apply Hval.
      * injection Hin as <- <- <-. now apply f_defined.
    + rewrite map_app, Hkeys. reflexivity.
    + apply NoDup_app; [exact Hnd | repeat constructor; intros [] | ].
      intros q Hq [<- | []]. contradiction.
    + now exists [(x, y, fval x y)].
    + now exists [(x, y)].
    + apply in_or_app. right. now left.
Qed.

Lemma eval_f_fails (self : solver) (x y : R) (w : world) :
  cache_ok w -> ~ f_dom y -> eval_f self x y w = Err DivisionByZero.
Proof.
  intros (Hval & _) Hd. unfold eval_f.
  destruct (cache_find x y (cache w)) as [v | ] eqn:E.
  - apply cache_find_some, Hval, f_Ok_inv in E. tauto.
  - unfold bind, call_f. now rewrite (f_undefined x y Hd).
Qed.

(** ** Vectors and the coefficient matrix *)

Lemma vec_set_length (l : list R) (i : nat) (v : R) :
  length (vec_set l i v) = length l.
Proof.
  revert i. induction l as [| a l IH]; intros [| i]; cbn; auto.
Qed.

Lemma nth_vec_set_eq (l : list R) (i : nat) (v d : R) :
  (i < length l)%nat -> nth i (vec_set l i v) d = v.
Proof.
  revert i. induction l as [| a l IH]; intros [| i]; cbn; try lia; auto.
  intros H. apply IH. lia.
Qed.

Lemma nth_vec_set_neq (l : list R) (i j : nat) (v d : R) :
  i <> j -> nth j (vec_set l i v) d = nth j l d.
Proof.
  revert i j. induction l as [| a l IH]; intros [| i] [| j]; cbn; auto; try lia.
Qed.

Lemma nth_vec_add (l : list R) (i j : nat) (t : R) :
  (i < length l)%nat ->
  nth j (vec_add l i t) 0 = nth j l 0 + (if Nat.eq_dec i j then t else 0).
Proof.
  intros Hi. unfold vec_add. destruct (Nat.eq_dec i j) as [<- | N].
  - now rewrite nth_vec_set_eq.
  - rewrite nth_vec_set_neq by exact N. lra.
Qed.

Lemma nth_repeat_0 (n i : nat) : nth i (repeat 0 n) 0 = 0.
Proof.
  revert i. induction n as [| n IH]; intros [| i]; cbn; auto.
Qed.

Lemma mat_new (c r j i : nat) : mat (array2d_new c r) j i = 0.
Proof.
  unfold mat, array2d_new. cbn [a_data].
  revert j. induction r as [| r IH]; intros [| j]; cbn [repeat nth].
  - now destruct i.
  - now destruct i.
  - apply nth_repeat_0.
  - apply IH.
Qed.

Lemma array2d_new_wf (n : nat) : array2d_wf n (array2d_new n n).
Proof.
  unfold array2d_wf, array2d_new. cbn. rewrite repeat_length.
  repeat split; auto.
  apply Forall_forall. intros r Hr. apply repeat_spec in Hr. subst.
  apply repeat_length.
Qed.

Lemma rows_set_length (d : list (list R)) (j i : nat) (v : R) :
  length (rows_set d j i v) = length d.
Proof.
  revert j. induction d as [| r d IH]; intros [| j]; cbn; auto.
Qed.

Lemma rows_set_Forall (n : nat) (d : list (list R)) (j i : nat) (v : R) :
  Forall (fun r => length r = n) d ->
  Forall (fun r => length r = n) (rows_set d j i v).
Proof.
  intros H. revert j. induction H as [| r d Hr Hd IH]; intros [| j]; cbn;
    constructor; auto.
  now rewrite vec_set_length.
Qed.

Lemma nth_rows_set_eq (n : nat) (d : list (list R)) (j i : nat) (v : R) :
  Forall (fun r => length r = n) d -> (j < length d)%nat -> (i < n)%nat ->
  nth i (nth j (rows_set d j i v) []) 0 = v.
Proof.
  intros H. revert j. induction H as [| r d Hr Hd IH]; intros [| j]; cbn;
    try lia; intros Hj Hi.
  - apply nth_vec_set_eq. lia.
  - apply IH; lia.
Qed.

Lemma nth_rows_set_neq (d : list (list R)) (j i j' i' : nat) (v : R) :
  (j <> j' \/ i <> i') ->
  nth i' (nth j' (rows_set d j i v) []) 0 = nth i' (nth j' d []) 0.
Proof.
  revert j j'. induction d as [| r d IH]; intros [| j] [| j'] H; cbn; auto.
  - apply nth_vec_set_neq. lia.
  - apply IH. lia.
Qed.

Lemma array2d_get_ok (n : nat) (m : array2d) (j i : nat) :
  array2d_wf n m -> (j < n)%nat -> (i < n)%nat ->
  array2d_get m j i = Ok (mat m j i).
Proof.
  intros (Hr & Hc & _) Hj Hi. unfold array2d_get, in_bounds.
  rewrite Hr, Hc.
  destruct (Nat.ltb_spec j n), (Nat.ltb_spec i n); try lia. reflexivity.
Qed.

Lemma array2d_get_oob (n : nat) (m : array2d) (j i : nat) :
  array2d_wf n m -> (n <= j \/ n <= i)%nat ->
  array2d_get m j i = Err OutOfBounds.
Proof.
  intros (Hr & Hc & _) H. unfold array2d_get, in_bounds.
  rewrite Hr, Hc.
  destruct (Nat.ltb_spec j n), (Nat.ltb_spec i n); try lia; reflexivity.
Qed.

Lemma array2d_set_ok (n : nat) (m : array2d) (j i : nat) (v : R) :
  array2d_wf n m -> (j < n)%nat -> (i < n)%nat ->
  exists m', array2d_set m j i v = Ok m' /\ array2d_wf n m' /\
             mat m' j i = v /\
             forall j' i', (j <> j' \/ i <> i') -> mat m' j' i' = mat m j' i'.
Proof.
  intros (Hr & Hc & Hl & Hf) Hj Hi. unfold array2d_set, in_bounds.
  rewrite Hr, Hc.
  destruct (Nat.ltb_spec j n), (Nat.ltb_spec i n); try lia. cbn [andb].
  eexists. split; [reflexivity | ].
  unfold array2d_wf, mat. cbn [a_rows a_cols a_data].
  rewrite rows_set_length. repeat split; auto.
  - now apply rows_set_Forall.
  - apply (nth_rows_set_eq n); auto. lia.
  - intros j' i' H'. now apply nth_rows_set_neq.
Qed.

(** ** Sums *)

Lemma sum_n_ext (n : nat) (g h : nat -> R) :
  (forall i, (i < n)%nat -> g i = h i) -> sum_n n g = sum_n n h.
Proof.
  induction n as [| n IH]; intros H; cbn; auto.
  rewrite IH, H; auto.
Qed.

Lemma sum_n_zero (n : nat) (g : nat -> R) :
  (forall i, (i < n)%nat -> g i = 0) -> sum_n n g = 0.
Proof.
  induction n as [| n IH]; intros H; cbn; auto.
  rewrite IH, H; auto. lra.
Qed.

Lemma sum_n_plus (n : nat) (g h : nat -> R) :
  sum_n n (fun i => g i + h i) = sum_n n g + sum_n n h.
Proof.
  induction n as [| n IH]; cbn; [lra | rewrite IH; lra].
Qed.

Lemma sum_n_scal (n : nat) (c : R) (g : nat -> R) :
  sum_n n (fun i => c * g i) = c * sum_n n g.
Proof.
  induction n as [| n IH]; cbn; [lra | rewrite IH; lra].
Qed.

Lemma sum_n_swap (n m : nat) (g : nat -> nat -> R) :
  sum_n n (fun i => sum_n m (fun j => g i j))
  = sum_n m (fun j => sum_n n (fun i => g i j)).
Proof.
  induction n as [| n IH]; cbn.
  - symmetry. now apply sum_n_zero.
  - rewrite IH, <- sum_n_plus. reflexivity.
Qed.

Lemma iter_n_ext {S : Type} (n : nat) (g h : nat -> S -> S) (a : S) :
  (forall i s, (i < n)%nat -> g i s = h i s) -> iter_n n g a = iter_n n h a.
Proof.
  induction n as [| n IH]; intros H; cbn; auto.
  rewrite IH, H; auto.
Qed.

Lemma iter_n_sum (n : nat) (g : nat -> R) (a : R) :
  iter_n n (fun j acc => acc + g j) a = a + sum_n n g.
Proof.
  induction n as [| n IH]; cbn; [lra | rewrite IH; lra].
Qed.

Lemma iter_n_sum2 (n m : nat) (g : nat -> nat -> R) (a : R) :
  iter_n n (fun i acc => iter_n m (fun j acc' => acc' + g i j) acc) a
  = a + sum_n n (fun i => sum_n m (fun j => g i j)).
Proof.
  induction n as [| n IH]; [cbn; lra | ].
  change (iter_n (Datatypes.S n) ?G a) with (G n (iter_n n G a)).
  cbv beta. rewrite IH, (iter_n_sum m (g n)). cbn [sum_n].
  apply Rplus_assoc.
Qed.

(** ** The candidate grid *)

Lemma lit_bound : 0 < lit_0_999999999999999 < 1.
Proof. unfold lit_0_999999999999999. lra. Qed.

Lemma cheb_bound (i n : Z) (v : R) : cheb i n = Ok v -> -1 < v < 1.
Proof.
  unfold cheb. intros H.
  destruct (real_div_inv (PI * IZR i) (IZR n) _ eq_refl) as [[_ E] | [_ E]];
    rewrite E in H; cbn [rbind] in H; [discriminate | ].
  injection H as <-.
  pose proof (COS_bound (PI * IZR i / IZR n)) as Hc.
  pose proof lit_bound as Hq. nra.
Qed.

Lemma push_nodes_bound (c : nat) (gs : Z) (l : list R) :
  push_nodes c gs = Ok l -> forall v, In v l -> -1 < v < 1.
Proof.
  revert l. induction c as [| c IH]; cbn [push_nodes]; intros l H v Hv.
  - injection H as <-. destruct Hv.
  - destruct (push_nodes c gs) as [l0 | ]; cbn [rbind] in H; [ | discriminate].
    destruct (cheb (Z.of_nat c) gs) as [v0 | ] eqn:Ec; cbn [rbind] in H;
      [ | discriminate].
    injection H as <-. apply in_app_or in Hv as [Hv | [<- | []]].
    + now apply (IH l0).
    + now apply (cheb_bound _ _ _ Ec).
Qed.

Lemma solver_ok_coeff (gs iters : Z) (k : nat) (s : solver) (v : R) :
  solver_ok gs iters k s -> In v (m_coeff s) -> -1 < v < 1.
Proof.
  intros Hs. apply (push_nodes_bound _ _ _ (ok_coeff _ _ _ _ Hs)).
Qed.

Lemma solver_ok_pivot (gs iters : Z) (k : nat) (s : solver) (i : nat) :
  solver_ok gs iters k s -> (i < k)%nat ->
  -1 < real2.x (pivot s i) < 1 /\ -1 < real2.y (pivot s i) < 1.
Proof.
  intros Hs Hi.
  assert (In (pivot s i) (m_pivots s)) as Hin.
  { apply nth_In. now rewrite (ok_size _ _ _ _ Hs). }
  apply (ok_pivots _ _ _ _ Hs) in Hin as [Hx Hy].
  split; eapply solver_ok_coeff; eauto.
Qed.

(** ** The error function evaluator *)

Lemma eval_ek_runs (gs iters : Z) (k : nat) (s : solver) (x y : R) (w : world) :
  solver_ok gs iters k s -> cache_ok w -> f_dom y ->
  runs (eval_ek s x y) w
       (fun v w' => v = residual s x y /\ In (x, y) (f_calls w')).
Proof.
  intros Hs Hw Hy. unfold eval_ek.
  eapply runs_bind; [now apply eval_f_runs | ].
  intros a w1 Hok1 Hex1 [-> Hin]. cbv beta.
  rewrite (ok_size _ _ _ _ Hs).
  set (t := fun i j => mat (m_ek s) j i * fval (real2.x (pivot s i)) y
                       * fval x (real2.y (pivot s j))).
  eapply runs_weaken.
  - apply (runs_for_n_pure _ _
             (fun i acc => iter_n k (fun j acc' => acc' + t i j) acc));
      [exact Hok1 | ].
    intros i b w2 Hi Hok2 Hex2.
    apply (runs_for_n_pure _ _ (fun j acc' => acc' + t i j)); [exact Hok2 | ].
    intros j c w3 Hj Hok3 Hex3.
    eapply runs_bind.
    + apply (runs_lift _ (mat (m_ek s) j i) _ (fun m _ => m = mat (m_ek s) j i));
        auto.
      apply (array2d_get_ok (Z.to_nat iters)).
      * apply (ok_matrix _ _ _ _ Hs).
      * pose proof (ok_capacity _ _ _ _ Hs). lia.
      * pose proof (ok_capacity _ _ _ _ Hs). lia.
    + intros m w4 Hok4 Hex4 ->. cbv beta.
      destruct (real_nonzero (mat (m_ek s) j i)) eqn:Enz.
      * eapply runs_bind; [now apply eval_f_runs | ].
        intros a1 w5 Hok5 Hex5 [-> _]. cbv beta.
        eapply runs_bind.
        { apply eval_f_runs; [exact Hok5 | ].
          apply f_dom_open. now apply (solver_ok_pivot gs iters k s j Hs). }
        intros a2 w6 Hok6 Hex6 [-> _]. cbv beta.
        apply runs_ret; [exact Hok6 | reflexivity].
      * apply runs_ret; [exact Hok4 | ].
        apply real_nonzero_false in Enz. unfold t. rewrite Enz. lra.
  - intros v w' Hok' Hex' ->. cbv beta. split.
    + rewrite iter_n_sum2. unfold residual. now rewrite (ok_size _ _ _ _ Hs).
    + now apply (extends_calls w1).
Qed.

(** ** The pivot search *)

Lemma scan_pairs_coeff (s : solver) (q : R * R) :
  In q (scan_pairs s) -> In (fst q) (m_coeff s) /\ In (snd q) (m_coeff s).
Proof.
  unfold scan_pairs. intros H. apply in_flat_map in H as (b & Hb & H).
  apply in_map_iff in H as (a & <- & Ha). auto.
Qed.

Lemma scan_pairs_length (s : solver) :
  length (scan_pairs s) = (length (m_coeff s) * length (m_coeff s))%nat.
Proof.
  unfold scan_pairs.
  assert (forall l c : list R,
             length (flat_map (fun y => map (fun x => (x, y)) c) l)
             = (length l * length c)%nat) as H.
  { intros l c. induction l as [| b l IH]; cbn [flat_map]; [reflexivity | ].
    rewrite length_app, length_map, IH. reflexivity. }
  apply H.
Qed.

Lemma find_pivot_runs (gs iters : Z) (k : nat) (s : solver) (w : world) :
  solver_ok gs iters k s -> cache_ok w ->
  runs (find_pivot s) w
       (fun r w' => r = scan s /\
                    forall q, In q (scan_pairs s) -> In q (f_calls w')).
Proof.
  intros Hs Hw. unfold find_pivot, scan, scan_pairs.
  set (row := fun y : R => map (fun x : R => (x, y)) (m_coeff s)).
  set (init := (real2.make 0 0, 0)).
  apply (runs_for_each (m_coeff s) _
           (fun pre best w' =>
              best = fold_left (better s) (flat_map row pre) init /\
              forall q, In q (flat_map row pre) -> In q (f_calls w')));
    [exact Hw | split; [reflexivity | intros q []] | ].
  intros pre y post best w1 Hl Hok1 Hex1 [Hbest Hseen].
  assert (In y (m_coeff s)) as Hy.
  { rewrite Hl. apply in_or_app. right. now left. }
  eapply runs_weaken.
  - apply (runs_for_each (m_coeff s) _
             (fun prex best' w' =>
                best' = fold_left (better s) (map (fun x => (x, y)) prex) best /\
                forall q, In q (map (fun x => (x, y)) prex) ->
                          In q (f_calls w')));
      [exact Hok1 | split; [reflexivity | intros q []] | ].
    intros prex x postx best' w2 Hlx Hok2 Hex2 [Hbest' Hseen'].
    unfold scan_body.
    eapply runs_bind.
    + apply (eval_ek_runs gs iters k s x y); auto.
      apply f_dom_open. now apply (solver_ok_coeff gs iters k s).
    + intros res w3 Hok3 Hex3 [-> Hin]. cbv beta.
      assert (forall q, In q (map (fun x0 => (x0, y)) prex ++ [(x, y)]) ->
                        In q (f_calls w3)) as Hall.
      { intros q Hq.
        apply in_app_or in Hq as [Hq | [<- | []]]; [ | exact Hin].
        apply (extends_calls w2); auto. }
      rewrite map_app, fold_left_app. cbn [map fold_left].
      rewrite <- Hbest'. unfold better. cbn [fst snd].
      destruct (Rge_dec (fabs (residual s x y)) (fabs (snd best')));
        apply runs_ret; auto.
  - intros best' w2 Hok2 Hex2 [-> Hseen']. cbv beta.
    rewrite flat_map_app, fold_left_app. cbn [flat_map].
    rewrite app_nil_r, <- Hbest. split; [reflexivity | ].
    intros q Hq. apply in_app_or in Hq as [Hq | Hq].
    + apply (extends_calls w1); auto.
    + now apply Hseen'.
Qed.

(** The fold keeps the last of the candidates of greatest magnitude. *)
Lemma fold_better_last_max (s : solver) (l : list (R * R)) (init : real2 * R) :
  (exists l1 q l2,
      l = l1 ++ q :: l2 /\
      fold_left (better s) l init
      = (real2.make (fst q) (snd q), residual s (fst q) (snd q)) /\
      fabs (snd init) <= fabs (residual s (fst q) (snd q)) /\
      (forall q', In q' l1 ->
                  fabs (residual s (fst q') (snd q'))
                  <= fabs (residual s (fst q) (snd q))) /\
      (forall q', In q' l2 ->
                  fabs (residual s (fst q') (snd q'))
                  < fabs (residual s (fst q) (snd q))))
  \/ (fold_left (better s) l init = init /\
      forall q', In q' l ->
                 fabs (residual s (fst q') (snd q')) < fabs (snd init)).
Proof.
  induction l as [| a l IH] using rev_ind.
  - right. split; [reflexivity | intros q' []].
  - rewrite fold_left_app. cbn [fold_left]. unfold better at 1 3.
    destruct (Rge_dec (fabs (residual s (fst a) (snd a)))
                      (fabs (snd (fold_left (better s) l init)))) as [Hge | Hlt].
    + left. exists l, a, []. split; [reflexivity | ]. split; [reflexivity | ].
      destruct IH as [(l1 & q & l2 & -> & E & Hi & H1 & H2) | [E Hall]];
        rewrite E in Hge; cbn [snd] in Hge.
      * split; [lra | ]. split; [ | intros q' []].
        intros q' Hq'. apply in_app_or in Hq' as [Hq' | [<- | Hq']].
        -- specialize (H1 q' Hq'). lra.
        -- lra.
        -- specialize (H2 q' Hq'). lra.
      * split; [lra | ]. split; [ | intros q' []].
        intros q' Hq'. specialize (Hall q' Hq'). lra.
    + apply Rnot_ge_lt in Hlt.
      destruct IH as [(l1 & q & l2 & -> & E & Hi & H1 & H2) | [E Hall]];
        rewrite E in Hlt; cbn [snd] in Hlt.
      * left. exists l1, q, (l2 ++ [a]).
        split; [now rewrite <- app_assoc | ].
        split; [exact E | ]. split; [exact Hi | ]. split; [exact H1 | ].
        intros q' Hq'. apply in_app_or in Hq' as [Hq' | [<- | []]]; auto.
      * right. split; [exact E | ].
        intros q' Hq'. apply in_app_or in Hq' as [Hq' | [<- | []]]; auto.
Qed.

Lemma scan_spec (s : solver) :
  (scan_pairs s = [] /\ scan s = (real2.make 0 0, 0))
  \/ exists l1 q l2,
      scan_pairs s = l1 ++ q :: l2 /\
      scan s = (real2.make (fst q) (snd q), residual s (fst q) (snd q)) /\
      (forall q', In q' l1 ->
                  fabs (residual s (fst q') (snd q'))
                  <= fabs (residual s (fst q) (snd q))) /\
      (forall q', In q' l2 ->
                  fabs (residual s (fst q') (snd q'))
                  < fabs (residual s (fst q) (snd q))).
Proof.
  unfold scan.
  destruct (fold_better_last_max s (scan_pairs s) (real2.make 0 0, 0))
    as [(l1 & q & l2 & El & E & _ & H1 & H2) | [E Hall]].
  - right. exists l1, q, l2. auto.
  - left. split; [ | exact E].
    destruct (scan_pairs s) as [| q l]; [reflexivity | ].
    specialize (Hall q (or_introl eq_refl)). cbn [snd] in Hall.
    unfold fabs in Hall. rewrite Rabs_R0 in Hall.
    pose proof (Rabs_pos (residual s (fst q) (snd q))). lra.
Qed.

(** ** The cross vectors *)

Lemma vec_set_same (l : list R) (i : nat) : vec_set l i (nth i l 0) = l.
Proof.
  revert i. induction l as [| a l IH]; intros [| i]; cbn; auto.
  now rewrite IH.
Qed.

Lemma vec_add_zero (l : list R) (i : nat) : vec_add l i 0 = l.
Proof.
  unfold vec_add. rewrite Rplus_0_r. apply vec_set_same.
Qed.

Lemma vec_add_length (l : list R) (i : nat) (t : R) :
  length (vec_add l i t) = length l.
Proof. apply vec_set_length. Qed.

Lemma iter_n_pair {A B : Type} (n : nat) (g : nat -> A -> A) (h : nat -> B -> B)
  (v : A * B) :
  iter_n n (fun m v' => (g m (fst v'), h m (snd v'))) v
  = (iter_n n g (fst v), iter_n n h (snd v)).
Proof.
  induction n as [| n IH]; cbn [iter_n]; [now destruct v | now rewrite IH].
Qed.

Lemma iter_vec_add_length (n : nat) (idx : nat -> nat) (t : nat -> R)
  (l : list R) :
  length (iter_n n (fun m v => vec_add v (idx m) (t m)) l) = length l.
Proof.
  induction n as [| n IH]; cbn [iter_n]; [reflexivity | ].
  now rewrite vec_add_length.
Qed.

Lemma nth_iter_vec_add (n : nat) (idx : nat -> nat) (t : nat -> R)
  (l : list R) (j : nat) :
  (forall m, (m < n)%nat -> (idx m < length l)%nat) ->
  nth j (iter_n n (fun m v => vec_add v (idx m) (t m)) l) 0
  = nth j l 0 + sum_n n (fun m => if Nat.eq_dec (idx m) j then t m else 0).
Proof.
  intros H. induction n as [| n IH]; cbn [iter_n sum_n]; [lra | ].
  rewrite nth_vec_add.
  - rewrite IH by (intros; apply H; lia). lra.
  - rewrite iter_vec_add_length. apply H. lia.
Qed.

Lemma iter2_vec_add_length (n m : nat) (idx : nat -> nat -> nat)
  (t : nat -> nat -> R) (l : list R) :
  length (iter_n n (fun i v =>
            iter_n m (fun j v' => vec_add v' (idx i j) (t i j)) v) l)
  = length l.
Proof.
  induction n as [| n IH]; cbn [iter_n]; [reflexivity | ].
  now rewrite iter_vec_add_length.
Qed.

Lemma nth_iter2_vec_add (n m : nat) (idx : nat -> nat -> nat)
  (t : nat -> nat -> R) (l : list R) (j' : nat) :
  (forall i j, (i < n)%nat -> (j < m)%nat -> (idx i j < length l)%nat) ->
  nth j' (iter_n n (fun i v =>
            iter_n m (fun j v' => vec_add v' (idx i j) (t i j)) v) l) 0
  = nth j' l 0
    + sum_n n (fun i =>
        sum_n m (fun j => if Nat.eq_dec (idx i j) j' then t i j else 0)).
Proof.
  intros H. induction n as [| n IH]; cbn [iter_n sum_n]; [lra | ].
  rewrite nth_iter_vec_add.
  - rewrite IH by (intros; apply H; lia). lra.
  - intros j Hj. rewrite iter2_vec_add_length. apply H; lia.
Qed.

Lemma sum_n_delta (n : nat) (t : nat -> R) (j' : nat) :
  sum_n n (fun j => if Nat.eq_dec j j' then t j else 0)
  = if (j' <? n)%nat then t j' else 0.
Proof.
  induction n as [| n IH]; cbn [sum_n]; [reflexivity | ].
  rewrite IH.
  destruct (Nat.eq_dec n j') as [E | N], (Nat.ltb_spec j' n),
    (Nat.ltb_spec j' (Datatypes.S n)); try lia; try rewrite E; lra.
Qed.

Lemma sum_n_const_if (n : nat) (t : nat -> R) (P Q : Prop) (c : {P} + {Q}) :
  sum_n n (fun j => if c then t j else 0) = if c then sum_n n t else 0.
Proof.
  destruct c; [reflexivity | ]. now apply sum_n_zero.
Qed.

Lemma cross_vectors_runs (gs iters : Z) (k : nat) (s : solver) (p : real2)
  (w : world) :
  solver_ok gs iters k s -> cache_ok w -> f_dom (real2.y p) ->
  runs (cross_vectors s p) w
       (fun v _ =>
          (forall j, (j <= k)%nat -> nth j (fst v) 0 = ek_x_val s p j) /\
          (forall i, (i <= k)%nat -> nth i (snd v) 0 = ek_y_val s p i)).
Proof.
  intros Hs Hw Hp. pose proof (ok_size _ _ _ _ Hs) as Hk.
  pose proof (ok_capacity _ _ _ _ Hs) as Hcap.
  unfold cross_vectors, ek_x_val, ek_y_val. rewrite Hk.
  set (tx := fun i j : nat =>
               mat (m_ek s) j i * fval (real2.x (pivot s i)) (real2.y p)).
  set (ty := fun i j : nat =>
               mat (m_ek s) j i * fval (real2.x p) (real2.y (pivot s j))).
  set (G := fun i j (v : list R) => vec_add v j (tx i j)).
  set (H := fun i j (v : list R) => vec_add v i (ty i j)).
  eapply runs_bind.
  - apply (runs_for_n_pure _ _
             (fun i v => (iter_n k (G i) (fst v), iter_n k (H i) (snd v))));
      [exact Hw | ].
    intros i v w1 Hi Hok1 Hex1. rewrite <- iter_n_pair.
    apply (runs_for_n_pure _ _ (fun j v' => (G i j (fst v'), H i j (snd v'))));
      [exact Hok1 | ].
    intros j v' w2 Hj Hok2 Hex2. unfold cross_body.
    assert (array2d_get (m_ek s) j i = Ok (mat (m_ek s) j i)) as Eget.
    { apply (array2d_get_ok (Z.to_nat iters)); [ | lia | lia].
      apply (ok_matrix _ _ _ _ Hs). }
    rewrite Eget.
    eapply runs_bind.
    + apply (runs_lift _ (mat (m_ek s) j i) _ (fun m _ => m = mat (m_ek s) j i));
        auto.
    + intros m w3 Hok3 Hex3 ->. cbv beta.
      destruct (real_nonzero (mat (m_ek s) j i)) eqn:Enz.
      * eapply runs_bind; [now apply eval_f_runs | ].
        intros a w4 Hok4 Hex4 [-> _]. cbv beta zeta.
        eapply runs_bind.
        { apply (runs_lift _ (mat (m_ek s) j i) _
                   (fun m _ => m = mat (m_ek s) j i)); auto. }
        intros m w5 Hok5 Hex5 ->. cbv beta.
        eapply runs_bind.
        { apply eval_f_runs; [exact Hok5 | ].
          apply f_dom_open. now apply (solver_ok_pivot gs iters k s j Hs). }
        intros b w6 Hok6 Hex6 [-> _]. cbv beta.
        apply runs_ret; [exact Hok6 | reflexivity].
      * apply runs_ret; [exact Hok3 | ].
        apply real_nonzero_false in Enz. unfold G, H, tx, ty. rewrite Enz.
        rewrite !Rmult_0_l, !vec_add_zero. now destruct v'.
  - intros v w1 Hok1 Hex1 ->. apply runs_ret; [exact Hok1 | ].
    rewrite (iter_n_pair k (fun i => iter_n k (G i)) (fun i => iter_n k (H i))).
    cbn [fst snd]. split.
    + intros j Hj. destruct (Nat.ltb_spec j k) as [Hlt | Hge].
      * rewrite nth_vec_set_neq by lia. unfold G.
        rewrite nth_iter2_vec_add
          by (intros; rewrite repeat_length; lia).
        rewrite nth_repeat_0, Rplus_0_l. apply sum_n_ext. intros i Hi.
        rewrite sum_n_delta.
        destruct (Nat.ltb_spec j k); [reflexivity | lia].
      * assert (j = k) as -> by lia. apply nth_vec_set_eq.
        unfold G. rewrite iter2_vec_add_length, repeat_length. lia.
    + intros i Hi. destruct (Nat.ltb_spec i k) as [Hlt | Hge].
      * rewrite nth_vec_set_neq by lia. unfold H.
        rewrite nth_iter2_vec_add
          by (intros; rewrite repeat_length; lia).
        rewrite nth_repeat_0, Rplus_0_l.
        rewrite (sum_n_ext k _
                   (fun i0 => if Nat.eq_dec i0 i
                              then sum_n k (fun j => ty i0 j) else 0)).
        -- rewrite sum_n_delta.
           destruct (Nat.ltb_spec i k); [reflexivity | lia].
        -- intros i0 Hi0. apply sum_n_const_if.
      * assert (i = k) as -> by lia. apply nth_vec_set_eq.
        unfold H. rewrite iter2_vec_add_length, repeat_length. lia.
Qed.

(** ** The coefficient update *)

Lemma update_inner_runs (n : nat) (ex ey : list R) (dk : R) (i r : nat)
  (m : array2d) (w : world) :
  array2d_wf n m -> (i < n)%nat -> (r <= n)%nat -> cache_ok w ->
  runs (for_n r (fun j m2 => update_body ex ey dk i j m2) m) w
       (fun m' w' =>
          w' = w /\ array2d_wf n m' /\
          forall j i',
            mat m' j i'
            = if (i' =? i)%nat && (j <? r)%nat
              then mat m j i' - nth i' ey 0 * nth j ex 0 * dk
              else mat m j i').
Proof.
  intros Hwf Hi Hr Hw.
  apply (runs_for_n r _
           (fun c m' w' =>
              w' = w /\ array2d_wf n m' /\
              forall j i',
                mat m' j i'
                = if (i' =? i)%nat && (j <? c)%nat
                  then mat m j i' - nth i' ey 0 * nth j ex 0 * dk
                  else mat m j i')); [exact Hw | | ].
  - split; [reflexivity | ]. split; [exact Hwf | ].
    intros j i'. now rewrite Bool.andb_false_r.
  - intros j m2 w2 Hj Hok2 Hex2 (-> & Hwf2 & Hmat).
    destruct (array2d_set_ok n m2 j i
                (mat m2 j i - nth i ey 0 * nth j ex 0 * dk) Hwf2)
      as (m3 & Eset & Hwf3 & Hnew & Hold); [lia | lia | ].
    apply (runs_intro _ w w m3); auto using extends_refl.
    { unfold update_body, bind, lift.
      rewrite (array2d_get_ok n m2 j i Hwf2) by lia. now rewrite Eset. }
    split; [reflexivity | ]. split; [exact Hwf3 | ].
    intros j' i'.
    destruct (Nat.eq_dec j j') as [<- | Nj], (Nat.eq_dec i i') as [<- | Ni].
    + rewrite Hnew, Hmat, Nat.eqb_refl.
      destruct (Nat.ltb_spec j j), (Nat.ltb_spec j (Datatypes.S j)); try lia.
      reflexivity.
    + rewrite Hold, Hmat by auto.
      destruct (Nat.eqb_spec i' i); [congruence | reflexivity].
    + rewrite Hold, Hmat by auto. rewrite Nat.eqb_refl.
      destruct (Nat.ltb_spec j' j), (Nat.ltb_spec j' (Datatypes.S j)); try lia;
        reflexivity.
    + rewrite Hold, Hmat by auto.
      destruct (Nat.eqb_spec i' i); [congruence | reflexivity].
Qed.

Lemma update_ek_runs (n k : nat) (ex ey : list R) (dk : R) (m : array2d)
  (w : world) :
  array2d_wf n m -> (k < n)%nat -> cache_ok w ->
  runs (update_ek k ex ey dk m) w
       (fun m' w' =>
          w' = w /\ array2d_wf n m' /\
          forall j i,
            mat m' j i
            = if (i <=? k)%nat && (j <=? k)%nat
              then mat m j i - nth i ey 0 * nth j ex 0 * dk
              else mat m j i).
Proof.
  intros Hwf Hk Hw. unfold update_ek. rewrite Nat.add_1_r.
  eapply runs_weaken.
  - apply (runs_for_n (Datatypes.S k) _
             (fun c m' w' =>
                w' = w /\ array2d_wf n m' /\
                forall j i,
                  mat m' j i
                  = if (i <? c)%nat && (j <? Datatypes.S k)%nat
                    then mat m j i - nth i ey 0 * nth j ex 0 * dk
                    else mat m j i)); [exact Hw | | ].
    + split; [reflexivity | ]. split; [exact Hwf | ]. intros j i. reflexivity.
    + intros c m1 w1 Hc Hok1 Hex1 (-> & Hwf1 & Hmat).
      eapply runs_weaken.
      * apply (update_inner_runs n ex ey dk c (Datatypes.S k) m1 w); auto; lia.
      * intros m2 w2 Hok2 Hex2 (-> & Hwf2 & Hmat2). cbv beta.
        split; [reflexivity | ]. split; [exact Hwf2 | ].
        intros j i. rewrite Hmat2, Hmat.
        destruct (Nat.eqb_spec i c) as [-> | Ni],
          (Nat.ltb_spec j (Datatypes.S k)); cbn [andb].
        -- destruct (Nat.ltb_spec c c), (Nat.ltb_spec c (Datatypes.S c));
             try lia. reflexivity.
        -- now rewrite !Bool.andb_false_r.
        -- destruct (Nat.ltb_spec i c), (Nat.ltb_spec i (Datatypes.S c));
             try lia; reflexivity.
        -- now rewrite !Bool.andb_false_r.
  - intros m' w' Hok' Hex' (-> & Hwf' & Hmat). cbv beta.
    split; [reflexivity | ]. split; [exact Hwf' | ].
    intros j i. rewrite Hmat.
    destruct (Nat.ltb_spec i (Datatypes.S k)), (Nat.leb_spec i k),
      (Nat.ltb_spec j (Datatypes.S k)), (Nat.leb_spec j k); try lia;
      reflexivity.
Qed.

Lemma for_n_fail_first {S : Type} (n : nat) (body : nat -> S -> M S) (acc : S)
  (w : world) (e : error) :
  (0 < n)%nat -> body O acc w = Err e -> for_n n body acc w = Err e.
Proof.
  intros Hn H0. induction n as [| n IH]; [lia | ].
  cbn [for_n]. unfold bind. destruct n as [| n].
  - cbn [for_n]. unfold ret. exact H0.
  - rewrite IH by lia. reflexivity.
Qed.

(** A step taken when the pivot list already fills the matrix leaves the
    matrix at its first write to row [n]. *)
Lemma update_ek_oob (n : nat) (ex ey : list R) (dk : R) (m : array2d)
  (w : world) :
  array2d_wf n m -> cache_ok w ->
  update_ek n ex ey dk m w = Err OutOfBounds.
Proof.
  intros Hwf Hw. unfold update_ek. rewrite Nat.add_1_r.
  apply for_n_fail_first; [lia | ].
  cbn [for_n]. unfold bind at 1.
  destruct n as [| n].
  - cbn [for_n]. unfold ret, update_body, bind, lift.
    now rewrite (array2d_get_oob 0 m 0 0 Hwf) by lia.
  - destruct (update_inner_runs (Datatypes.S n) ex ey dk 0 (Datatypes.S n) m w)
      as (m' & w' & E & _ & _ & -> & Hwf' & _); auto; try lia.
    rewrite E. unfold update_body, bind, lift.
    now rewrite (array2d_get_oob (Datatypes.S n) m' (Datatypes.S n) 0 Hwf')
      by lia.
Qed.

(** ** The rank-one update on double sums *)

Lemma sum_n_minus (n : nat) (g h : nat -> R) :
  sum_n n (fun i => g i - h i) = sum_n n g - sum_n n h.
Proof.
  induction n as [| n IH]; cbn; [lra | rewrite IH; lra].
Qed.

Lemma sum_n_scal_r (n : nat) (c : R) (g : nat -> R) :
  sum_n n (fun i => g i * c) = sum_n n g * c.
Proof.
  induction n as [| n IH]; cbn; [lra | rewrite IH; lra].
Qed.

Lemma sum_n_prod (n m : nat) (u v : nat -> R) :
  sum_n n (fun i => sum_n m (fun j => u i * v j)) = sum_n n u * sum_n m v.
Proof.
  rewrite <- sum_n_scal_r. apply sum_n_ext. intros i _. apply sum_n_scal.
Qed.

Lemma sum_n_border (k : nat) (g : nat -> nat -> R) :
  (forall i j, (k <= i \/ k <= j)%nat -> g i j = 0) ->
  sum_n (Datatypes.S k) (fun i => sum_n (Datatypes.S k) (fun j => g i j))
  = sum_n k (fun i => sum_n k (fun j => g i j)).
Proof.
  intros Hz. cbn [sum_n].
  rewrite (sum_n_zero k (fun j => g k j)) by (intros; apply Hz; lia).
  rewrite (Hz k k) by lia.
  rewrite (sum_n_ext k _ (fun i => sum_n k (fun j => g i j))).
  - lra.
  - intros i Hi. rewrite (Hz i k) by lia. lra.
Qed.

Section RankUpdate.
Variable k : nat.
Variable c : nat -> nat -> R.
Variables A B a b : nat -> R.
Variables Ak Bk dk : R.
Hypothesis c_border : forall j i, (k <= i \/ k <= j)%nat -> c j i = 0.

Let ex (j : nat) : R :=
  if (j <? k)%nat then sum_n k (fun i => c j i * a i) else 1.
Let ey (i : nat) : R :=
  if (i <? k)%nat then sum_n k (fun j => c j i * b j) else 1.
Let A' (i : nat) : R := if (i <? k)%nat then A i else Ak.
Let B' (j : nat) : R := if (j <? k)%nat then B j else Bk.

Lemma rank_update_row :
  sum_n (Datatypes.S k) (fun i => ey i * A' i)
  = Ak + sum_n k (fun i => sum_n k (fun j => c j i * A i * b j)).
Proof.
  cbn [sum_n]. unfold ey at 2, A' at 2. rewrite Nat.ltb_irrefl.
  rewrite (sum_n_ext k _ (fun i => sum_n k (fun j => c j i * A i * b j))).
  - lra.
  - intros i Hi. unfold ey, A'.
    destruct (Nat.ltb_spec i k); [ | lia].
    rewrite <- sum_n_scal_r. apply sum_n_ext. intros j _. lra.
Qed.

Lemma rank_update_col :
  sum_n (Datatypes.S k) (fun j => ex j * B' j)
  = Bk + sum_n k (fun i => sum_n k (fun j => c j i * a i * B j)).
Proof.
  cbn [sum_n]. unfold ex at 2, B' at 2. rewrite Nat.ltb_irrefl.
  rewrite (sum_n_swap k k (fun i j => c j i * a i * B j)).
  rewrite (sum_n_ext k _ (fun j => sum_n k (fun i => c j i * a i * B j))).
  - lra.
  - intros j Hj. unfold ex, B'.
    destruct (Nat.ltb_spec j k); [ | lia].
    rewrite <- sum_n_scal_r. apply sum_n_ext. intros i _. lra.
Qed.

Lemma rank_update_sum :
  sum_n (Datatypes.S k) (fun i =>
    sum_n (Datatypes.S k) (fun j =>
      (c j i - ey i * ex j * dk) * A' i * B' j))
  = sum_n k (fun i => sum_n k (fun j => c j i * A i * B j))
    - (Ak + sum_n k (fun i => sum_n k (fun j => c j i * A i * b j)))
      * (Bk + sum_n k (fun i => sum_n k (fun j => c j i * a i * B j)))
      * dk.
Proof.
  rewrite <- rank_update_row, <- rank_update_col.
  rewrite <- (sum_n_prod (Datatypes.S k) (Datatypes.S k)
                (fun i => ey i * A' i) (fun j => ex j * B' j)).
  rewrite <- (sum_n_border k (fun i j => c j i * A i * B j))
    by (intros i j H; rewrite (c_border j i H); lra).
  rewrite <- sum_n_scal_r, <- sum_n_minus.
  apply sum_n_ext. intros i Hi.
  rewrite <- sum_n_scal_r, <- sum_n_minus.
  apply sum_n_ext. intros j Hj.
  unfold A', B'.
  destruct (Nat.ltb_spec i k) as [Hik | Hik], (Nat.ltb_spec j k) as [Hjk | Hjk];
    try lra.
  - rewrite (c_border j i) by lia. lra.
  - rewrite (c_border j i) by lia. lra.
  - rewrite (c_border j i) by lia. lra.
Qed.
End RankUpdate.

(** ** One step *)

Lemma pivot_app_old (s s' : solver) (p : real2) (i : nat) :
  m_pivots s' = m_pivots s ++ [p] -> (i < length (m_pivots s))%nat ->
  pivot s' i = pivot s i.
Proof.
  intros H Hi. unfold pivot. rewrite H. now apply app_nth1.
Qed.

Lemma pivot_app_new (s s' : solver) (p : real2) :
  m_pivots s' = m_pivots s ++ [p] -> pivot s' (length (m_pivots s)) = p.
Proof.
  intros H. unfold pivot. rewrite H. apply nth_middle.
Qed.

(** The updated matrix realises the telescoping recurrence: at the new
    pivot [p], [e_{k+1}(x,y) = e_k(x,y) - e_k(p.x,y) e_k(x,p.y) dk]. *)
Lemma residual_step (gs iters : Z) (k : nat) (s s' : solver) (p : real2)
  (dk x y : R) :
  solver_ok gs iters k s ->
  m_pivots s' = m_pivots s ++ [p] ->
  (forall j i,
      mat (m_ek s') j i
      = if (i <=? k)%nat && (j <=? k)%nat
        then mat (m_ek s) j i - ek_y_val s p i * ek_x_val s p j * dk
        else mat (m_ek s) j i) ->
  residual s' x y
  = residual s x y
    - residual s (real2.x p) y * residual s x (real2.y p) * dk.
Proof.
  intros Hs Hp Hm. pose proof (ok_size _ _ _ _ Hs) as Hk.
  unfold residual. rewrite Hp, length_app, Hk. cbn [length].
  rewrite Nat.add_1_r.
  pose proof (rank_update_sum k (fun j i => mat (m_ek s) j i)
                (fun i => fval (real2.x (pivot s i)) y)
                (fun j => fval x (real2.y (pivot s j)))
                (fun i => fval (real2.x (pivot s i)) (real2.y p))
                (fun j => fval (real2.x p) (real2.y (pivot s j)))
                (fval (real2.x p) y) (fval x (real2.y p)) dk
                (fun j i H => ok_unused _ _ _ _ Hs j i H)) as HR.
  cbv zeta beta in HR.
  match type of HR with
  | ?L = _ =>
      assert (sum_n (Datatypes.S k) (fun i =>
                sum_n (Datatypes.S k) (fun j =>
                  mat (m_ek s') j i * fval (real2.x (pivot s' i)) y
                  * fval x (real2.y (pivot s' j)))) = L) as E
  end.
  - apply sum_n_ext. intros i Hi. apply sum_n_ext. intros j Hj.
    rewrite Hm.
    destruct (Nat.leb_spec i k), (Nat.leb_spec j k); try lia. cbn [andb].
    unfold ek_y_val, ek_x_val. rewrite Hk.
    assert (pivot s' i = if (i <? k)%nat then pivot s i else p) as ->.
    { destruct (Nat.ltb_spec i k).
      - apply (pivot_app_old s s' p); [exact Hp | lia].
      - assert (i = k) as -> by lia. rewrite <- Hk.
        now apply pivot_app_new. }
    assert (pivot s' j = if (j <? k)%nat then pivot s j else p) as ->.
    { destruct (Nat.ltb_spec j k).
      - apply (pivot_app_old s s' p); [exact Hp | lia].
      - assert (j = k) as -> by lia. rewrite <- Hk.
        now apply pivot_app_new. }
    destruct (i <? k)%nat, (j <? k)%nat; reflexivity.
  - rewrite E, HR. lra.
Qed.

Lemma bind_ok {A B : Type} (m : M A) (k : A -> M B) (w w' : world) (a : A) :
  m w = Ok (a, w') -> bind m k w = k a w'.
Proof. intros E. unfold bind. now rewrite E. Qed.

Lemma bind_err {A B : Type} (m : M A) (k : A -> M B) (w : world) (e : error) :
  m w = Err e -> bind m k w = Err e.
Proof. intros E. unfold bind. now rewrite E. Qed.

Lemma runs_unique {A : Type} (m : M A) (w w' : world) (a : A)
  (P : A -> world -> Prop) :
  runs m w P -> m w = Ok (a, w') -> cache_ok w' /\ extends w w' /\ P a w'.
Proof.
  intros (a0 & w0 & E & Hok & Hex & HP) E'. rewrite E in E'.
  injection E' as <- <-. auto.
Qed.

Lemma scan_pivot_in (s : solver) (p : real2) (v : R) :
  scan s = (p, v) -> scan_pairs s <> [] ->
  In (real2.x p, real2.y p) (scan_pairs s) /\
  v = residual s (real2.x p) (real2.y p).
Proof.
  intros Hscan Hne.
  destruct (scan_spec s) as [[E _] | (l1 & q & l2 & El & E & _)];
    [contradiction | ].
  rewrite Hscan in E. injection E as -> ->. cbn [real2.x real2.y].
  split; [ | reflexivity].
  rewrite El. apply in_or_app. right. left. now destruct q.
Qed.

Lemma scan_zero_of_empty (s : solver) (p : real2) (v : R) :
  scan s = (p, v) -> scan_pairs s = [] -> v = 0.
Proof.
  unfold scan. intros H E. rewrite E in H. cbn in H. now injection H as _ <-.
Qed.

Lemma scan_pivot_dom (gs iters : Z) (k : nat) (s : solver) (p : real2)
  (v : R) :
  solver_ok gs iters k s -> scan s = (p, v) -> v <> 0 ->
  In (real2.x p) (m_coeff s) /\ In (real2.y p) (m_coeff s) /\
  v = residual s (real2.x p) (real2.y p).
Proof.
  intros Hs Hscan Hv.
  destruct (scan_pivot_in s p v Hscan) as [Hin Ev].
  - intros E. apply Hv. now apply (scan_zero_of_empty s p).
  - apply scan_pairs_coeff in Hin. cbn [fst snd] in Hin. tauto.
Qed.

Lemma step_runs (gs iters : Z) (k : nat) (s : solver) (w : world)
  (p : real2) (v : R) :
  solver_ok gs iters k s -> cache_ok w ->
  scan s = (p, v) -> v <> 0 -> (k < Z.to_nat iters)%nat ->
  runs (step s) w
       (fun s' w' =>
          step_post s p v s' /\ solver_ok gs iters (Datatypes.S k) s' /\
          forall q, In q (scan_pairs s) -> In q (f_calls w')).
Proof.
  intros Hs Hw Hscan Hv Hk. pose proof (ok_size _ _ _ _ Hs) as Hsz.
  destruct (scan_pivot_dom gs iters k s p v Hs Hscan Hv) as (Hpx & Hpy & Ev).
  unfold step.
  eapply runs_bind; [apply (find_pivot_runs gs iters k s w Hs Hw) | ].
  intros r w1 Hok1 Hex1 [-> Hseen]. rewrite Hscan. cbv beta iota.
  eapply runs_bind.
  { apply (runs_lift _ (1 / v) _ (fun d _ => d = 1 / v)); auto.
    now apply real_div_ok. }
  intros dk w2 Hok2 Hex2 ->. cbv beta.
  eapply runs_bind.
  { apply (cross_vectors_runs gs iters k s p w2 Hs Hok2).
    apply f_dom_open. now apply (solver_ok_coeff gs iters k s). }
  intros [ek_x ek_y] w3 Hok3 Hex3 [Hx Hy]. cbn [fst snd] in Hx, Hy.
  cbv beta iota.
  eapply runs_bind.
  { apply (update_ek_runs (Z.to_nat iters) (length (m_pivots s)) ek_x ek_y
             (1 / v) (m_ek s) w3); auto.
    - apply (ok_matrix _ _ _ _ Hs).
    - lia. }
  intros ek w4 Hok4 Hex4 (-> & Hwf & Hmat). cbv beta.
  assert (forall j i,
             mat ek j i
             = if (i <=? length (m_pivots s))%nat
                  && (j <=? length (m_pivots s))%nat
               then mat (m_ek s) j i
                    - ek_y_val s p i * ek_x_val s p j * (1 / v)
               else mat (m_ek s) j i) as Hmat'.
  { intros j i. rewrite Hmat, Hsz.
    destruct (Nat.leb_spec i k), (Nat.leb_spec j k); cbn [andb]; auto.
    now rewrite Hx, Hy. }
  apply runs_ret; [exact Hok3 | ].
  destruct (ok_matrix _ _ _ _ Hs) as (Hr & Hc & _).
  destruct Hwf as (Hr' & Hc' & Hl' & Hf').
  split; [ | split].
  - unfold step_post. cbn [m_grid_size m_iters m_coeff m_pivots m_ek].
    repeat split; auto; congruence.
  - constructor; cbn [m_grid_size m_iters m_coeff m_pivots m_ek].
    + apply (ok_grid_size _ _ _ _ Hs).
    + apply (ok_iters _ _ _ _ Hs).
    + apply (ok_coeff _ _ _ _ Hs).
    + rewrite length_app, Hsz. cbn. lia.
    + lia.
    + repeat split; auto.
    + intros j i Hji. rewrite Hmat', Hsz.
      destruct (Nat.leb_spec i k), (Nat.leb_spec j k); cbn [andb]; try lia;
        apply (ok_unused _ _ _ _ Hs); lia.
    + intros p' Hp'. apply in_app_or in Hp' as [Hp' | [<- | []]].
      * now apply (ok_pivots _ _ _ _ Hs).
      * auto.
  - intros q Hq. apply (extends_calls w1); auto.
    eapply extends_trans; eauto.
Qed.

Lemma step_div_error (gs iters : Z) (k : nat) (s : solver) (w : world)
  (p : real2) :
  solver_ok gs iters k s -> cache_ok w -> scan s = (p, 0) ->
  step s w = Err DivisionByZero.
Proof.
  intros Hs Hw Hscan.
  destruct (find_pivot_runs gs iters k s w Hs Hw)
    as (r & w1 & E & _ & _ & -> & _).
  unfold step. rewrite (bind_ok _ _ _ _ _ E), Hscan.
  apply bind_err. unfold lift. now rewrite real_div_zero.
Qed.

Lemma step_oob (gs iters : Z) (k : nat) (s : solver) (w : world)
  (p : real2) (v : R) :
  solver_ok gs iters k s -> cache_ok w -> scan s = (p, v) -> v <> 0 ->
  k = Z.to_nat iters ->
  step s w = Err OutOfBounds.
Proof.
  intros Hs Hw Hscan Hv Hk. pose proof (ok_size _ _ _ _ Hs) as Hsz.
  destruct (scan_pivot_dom gs iters k s p v Hs Hscan Hv) as (Hpx & Hpy & Ev).
  destruct (find_pivot_runs gs iters k s w Hs Hw)
    as (r & w1 & E & Hok1 & _ & -> & _).
  unfold step. rewrite (bind_ok _ _ _ _ _ E), Hscan.
  rewrite (bind_ok _ _ w1 w1 (1 / v))
    by (unfold lift; now rewrite real_div_ok).
  destruct (cross_vectors_runs gs iters k s p w1 Hs Hok1)
    as ([ek_x ek_y] & w2 & E2 & Hok2 & _).
  { apply f_dom_open. now apply (solver_ok_coeff gs iters k s). }
  rewrite (bind_ok _ _ _ _ _ E2).
  apply bind_err. rewrite Hsz, Hk.
  apply update_ek_oob; [ | exact Hok2].
  apply (ok_matrix _ _ _ _ Hs).
Qed.

Lemma step_inv (gs iters : Z) (k : nat) (s s' : solver) (w w' : world) :
  solver_ok gs iters k s -> cache_ok w -> step s w = Ok (s', w') ->
  exists p v,
    scan s = (p, v) /\ v <> 0 /\ (k < Z.to_nat iters)%nat /\
    step_post s p v s' /\ solver_ok gs iters (Datatypes.S k) s' /\
    cache_ok w' /\ extends w w'.
Proof.
  intros Hs Hw E. destruct (scan s) as [p v] eqn:Hscan. exists p, v.
  destruct (Req_dec_T v 0) as [-> | Hv].
  { rewrite (step_div_error gs iters k s w p Hs Hw Hscan) in E. discriminate. }
  pose proof (ok_capacity _ _ _ _ Hs) as Hcap.
  destruct (Nat.eq_dec k (Z.to_nat iters)) as [Hk | Hk].
  { rewrite (step_oob gs iters k s w p v Hs Hw Hscan Hv Hk) in E.
    discriminate. }
  assert (k < Z.to_nat iters)%nat as Hlt by lia.
  destruct (runs_unique _ _ _ _ _
              (step_runs gs iters k s w p v Hs Hw Hscan Hv Hlt) E)
    as (Hok & Hex & Hpost & Hs' & _).
  auto 10.
Qed.

(** ** Invariants of the reachable states *)

Lemma solver_new_ok (gs iters : Z) (s : solver) :
  solver_new gs iters = Ok s -> solver_ok gs iters O s.
Proof.
  unfold solver_new. intros H.
  destruct (push_nodes (Z.to_nat (gs + 1)) gs) as [l | ] eqn:El;
    cbn [rbind] in H; [ | discriminate].
  injection H as <-.
  constructor; cbn [m_grid_size m_iters m_coeff m_pivots m_ek]; auto.
  - cbn. lia.
  - apply array2d_new_wf.
  - intros j i _. apply mat_new.
  - intros p [].
Qed.

Lemma f_dom_dec (y : R) : {f_dom y} + {~ f_dom y}.
Proof.
  unfold f_dom.
  destruct (Req_dec_T (sqrt (1 - (y + 1) / 2 * ((y + 1) / 2))) 0) as [E | E].
  - right. intros H. now apply H.
  - now left.
Qed.

Lemma eval_f_inv (self : solver) (x y v : R) (w w' : world) :
  cache_ok w -> eval_f self x y w = Ok (v, w') ->
  cache_ok w' /\ extends w w' /\ f_dom y /\ v = fval x y.
Proof.
  intros Hw E. destruct (f_dom_dec y) as [Hd | Hd].
  - destruct (runs_unique _ _ _ _ _ (eval_f_runs self x y w Hw Hd) E)
      as (Hok & Hex & -> & _). auto.
  - rewrite (eval_f_fails self x y w Hw Hd) in E. discriminate.
Qed.

Lemma eval_ek_inv (gs iters : Z) (k : nat) (s : solver) (x y v : R)
  (w w' : world) :
  solver_ok gs iters k s -> cache_ok w -> eval_ek s x y w = Ok (v, w') ->
  cache_ok w' /\ extends w w' /\ f_dom y /\ v = residual s x y.
Proof.
  intros Hs Hw E. destruct (f_dom_dec y) as [Hd | Hd].
  - destruct (runs_unique _ _ _ _ _ (eval_ek_runs gs iters k s x y w Hs Hw Hd) E)
      as (Hok & Hex & -> & _). auto.
  - unfold eval_ek in E.
    rewrite (bind_err _ _ _ _ (eval_f_fails s x y w Hw Hd)) in E.
    discriminate.
Qed.

Lemma world_reach_ok (w : world) : world_reach w -> cache_ok w.
Proof.
  induction 1 as [| self x y v w w' _ IH E].
  - apply cache_ok_init.
  - now apply (eval_f_inv self x y v w w').
Qed.

Lemma reach_ok (gs iters : Z) (k : nat) (s : solver) (w : world) :
  reach gs iters k s w -> solver_ok gs iters k s /\ cache_ok w.
Proof.
  induction 1 as [s w _ Hnew Hw
                 | k s self x y v w w' _ [IHs IHw] E
                 | k s x y v w w' _ [IHs IHw] E
                 | k s s' w w' _ [IHs IHw] E].
  - split; [now apply solver_new_ok | now apply world_reach_ok].
  - split; [exact IHs | now apply (eval_f_inv self x y v w w')].
  - split; [exact IHs | now apply (eval_ek_inv gs iters k s x y v w w')].
  - destruct (step_inv gs iters k s s' w w' IHs IHw E)
      as (p & v & _ & _ & _ & _ & Hs' & Hw' & _). auto.
Qed.

(** ** Construction *)

Lemma cheb_defined (i n : Z) : n <> 0%Z -> cheb i n = Ok (cheb_val i n).
Proof.
  intros Hn. unfold cheb, cheb_val.
  rewrite real_div_ok; [reflexivity | ].
  now apply not_0_IZR.
Qed.

Lemma push_nodes_defined (c : nat) (n : Z) :
  n <> 0%Z ->
  push_nodes c n = Ok (map (fun i => cheb_val (Z.of_nat i) n) (seq 0 c)).
Proof.
  intros Hn. induction c as [| c IH]; cbn [push_nodes]; [reflexivity | ].
  rewrite IH, cheb_defined by exact Hn. cbn [rbind].
  now rewrite seq_S, map_app.
Qed.

Lemma solver_new_defined (gs iters : Z) :
  (1 <= gs)%Z ->
  exists s, solver_new gs iters = Ok s /\
            m_coeff s = map (fun i => cheb_val (Z.of_nat i) gs)
                            (seq 0 (Z.to_nat (gs + 1))) /\
            m_pivots s = [] /\
            m_ek s = array2d_new (Z.to_nat iters) (Z.to_nat iters).
Proof.
  intros Hgs. unfold solver_new.
  rewrite push_nodes_defined by lia. cbn [rbind].
  eexists. split; [reflexivity | ]. cbn. auto.
Qed.

Lemma solver_ok_coeff_length (gs iters : Z) (k : nat) (s : solver) :
  solver_ok gs iters k s -> length (m_coeff s) = Z.to_nat (gs + 1).
Proof.
  intros Hs. pose proof (ok_coeff _ _ _ _ Hs) as H.
  revert H. generalize (m_coeff s). generalize (Z.to_nat (gs + 1)).
  intros c. induction c as [| c IH]; cbn [push_nodes]; intros l H.
  - now injection H as <-.
  - destruct (push_nodes c gs) as [l0 | ]; cbn [rbind] in H; [ | discriminate].
    destruct (cheb (Z.of_nat c) gs) as [v0 | ]; cbn [rbind] in H;
      [ | discriminate].
    injection H as <-. rewrite length_app, (IH l0 eq_refl). cbn. lia.
Qed.

(** ** Magnitude of the selected residual *)

Lemma scan_max (s : solver) (p : real2) (v : R) (q : R * R) :
  scan s = (p, v) -> In q (scan_pairs s) ->
  fabs (residual s (fst q) (snd q)) <= fabs v.
Proof.
  intros Hscan Hq.
  destruct (scan_spec s) as [[E _] | (l1 & q0 & l2 & El & E & H1 & H2)].
  - rewrite E in Hq. destruct Hq.
  - rewrite Hscan in E. injection E as _ ->.
    rewrite El in Hq. apply in_app_or in Hq as [Hq | [<- | Hq]].
    + now apply H1.
    + lra.
    + specialize (H2 q Hq). lra.
Qed.

Lemma scan_nonzero (s : solver) (p : real2) (v : R) (q : R * R) :
  scan s = (p, v) -> In q (scan_pairs s) ->
  residual s (fst q) (snd q) <> 0 -> v <> 0.
Proof.
  intros Hscan Hq Hne ->.
  pose proof (scan_max s p 0 q Hscan Hq) as H.
  unfold fabs in H. rewrite Rabs_R0 in H.
  pose proof (Rabs_pos_lt _ Hne). lra.
Qed.

Lemma residual_initial (s : solver) (x y : R) :
  m_pivots s = [] -> residual s x y = fval x y.
Proof.
  intros E. unfold residual. rewrite E. cbn. lra.
Qed.

Lemma scan_initial_nonzero (gs iters : Z) (s : solver) (p : real2) (v : R) :
  solver_ok gs iters O s -> m_coeff s <> [] -> scan s = (p, v) -> v <> 0.
Proof.
  intros Hs Hne Hscan.
  destruct (m_coeff s) as [| c l] eqn:Ec; [contradiction | ].
  assert (In c (m_coeff s)) as Hc by (rewrite Ec; now left).
  apply (scan_nonzero s p v (c, c) Hscan).
  - unfold scan_pairs. rewrite Ec. cbn. now left.
  - cbn [fst snd]. rewrite residual_initial.
    + apply Rgt_not_eq. apply fval_pos; now apply (solver_ok_coeff gs iters O s).
    + pose proof (ok_size _ _ _ _ Hs) as H.
      now destruct (m_pivots s).
Qed.

Lemma solver_new_initial (gs iters : Z) :
  (1 <= gs)%Z -> solver_new gs iters = Ok (initial_solver gs iters).
Proof.
  intros Hgs. unfold solver_new, initial_solver.
  now rewrite push_nodes_defined by lia.
Qed.

Lemma reach_initial (gs iters : Z) :
  (1 <= gs < INT_MAX)%Z -> (0 <= iters <= INT_MAX)%Z ->
  reach gs iters O (initial_solver gs iters) world_init.
Proof.
  intros Hgs Hit. apply reach_new.
  - unfold params_ok. lia.
  - apply solver_new_initial. lia.
  - constructor.
Qed.

Lemma initial_coeff_nonempty (gs iters : Z) :
  (1 <= gs)%Z -> m_coeff (initial_solver gs iters) <> [].
Proof.
  intros Hgs E. apply (f_equal (@length R)) in E.
  cbn [initial_solver m_coeff] in E. rewrite length_map, length_seq in E.
  cbn in E. lia.
Qed.

(** The first step of a solver with room for one pivot succeeds. *)
Lemma first_step (gs iters : Z) :
  (1 <= gs < INT_MAX)%Z -> (1 <= iters <= INT_MAX)%Z ->
  exists p v w1 s1 w',
    find_pivot (initial_solver gs iters) world_init = Ok ((p, v), w1) /\
    v <> 0 /\
    step (initial_solver gs iters) world_init = Ok (s1, w').
Proof.
  intros Hgs Hit.
  destruct (reach_ok _ _ _ _ _ (reach_initial gs iters Hgs ltac:(lia)))
    as [Hs Hw].
  destruct (find_pivot_runs gs iters O _ world_init Hs Hw)
    as (r & w1 & E & _ & _ & Er & _).
  destruct r as [p v]. exists p, v, w1.
  assert (v <> 0) as Hv.
  { apply (scan_initial_nonzero gs iters (initial_solver gs iters) p); auto.
    apply initial_coeff_nonempty. lia. }
  destruct (step_runs gs iters O _ world_init p v Hs Hw (eq_sym Er) Hv)
    as (s1 & w' & E' & _); [lia | ].
  exists s1, w'. auto.
Qed.

(** The state left by the first step: one pivot, and the corner entry of
    the coefficient matrix is [-1/v], which is not zero. *)
Lemma first_step_state (gs iters : Z) :
  (1 <= gs < INT_MAX)%Z -> (1 <= iters <= INT_MAX)%Z ->
  exists p v w1 s1 w',
    find_pivot (initial_solver gs iters) world_init = Ok ((p, v), w1) /\
    v <> 0 /\
    step (initial_solver gs iters) world_init = Ok (s1, w') /\
    reach gs iters 1 s1 w' /\
    stepped gs iters 1 s1 w' /\
    m_pivots s1 = [p] /\
    mat (m_ek s1) 0 0 <> 0.
Proof.
  intros Hgs Hit.
  destruct (first_step gs iters Hgs Hit)
    as (p & v & w1 & s1 & w' & Hfind & Hv & Hstep).
  assert (reach gs iters O (initial_solver gs iters) world_init) as Hr
    by (apply reach_initial; lia).
  destruct (reach_ok _ _ _ _ _ Hr) as [Hs Hw].
  destruct (runs_unique _ _ _ _ _
              (find_pivot_runs gs iters O _ world_init Hs Hw) Hfind)
    as (_ & _ & Hscan & _).
  destruct (step_inv gs iters O _ s1 world_init w' Hs Hw Hstep)
    as (p0 & v0 & Hscan0 & _ & _ & Hpost & _).
  rewrite <- Hscan in Hscan0. injection Hscan0 as <- <-.
  destruct Hpost as (_ & _ & _ & Hpiv & _ & _ & Hmat).
  exists p, v, w1, s1, w'.
  split; [exact Hfind | ]. split; [exact Hv | ]. split; [exact Hstep | ].
  split; [exact (reach_step gs iters O _ s1 world_init w' Hr Hstep) | ].
  split.
  { apply (stepped_step gs iters O (initial_solver gs iters) s1
             world_init w'); [ | exact Hstep].
    apply stepped_new; [unfold params_ok; split; lia | ].
    apply solver_new_initial; lia. }
  split; [exact Hpiv | ].
  rewrite (Hmat O O). unfold ek_x_val, ek_y_val.
  cbn [initial_solver m_pivots m_ek length Nat.leb Nat.ltb andb].
  rewrite mat_new.
  assert (/ v <> 0) as Hi by now apply Rinv_neq_0_compat.
  unfold Rdiv. lra.
Qed.

(** With a negative [grid_size] the constructor's loop does not run: the
    grid is empty. *)
Lemma solver_new_negative (gs iters : Z) :
  (gs < 0)%Z -> solver_new gs iters = Ok (initial_solver gs iters).
Proof.
  intros Hgs. unfold solver_new, initial_solver.
  replace (Z.to_nat (gs + 1)) with O by lia. reflexivity.
Qed.

Lemma reach_negative (gs iters : Z) :
  (- INT_MAX - 1 <= gs < 0)%Z -> (0 <= iters <= INT_MAX)%Z ->
  reach gs iters O (initial_solver gs iters) world_init.
Proof.
  intros Hgs Hit. apply reach_new.
  - unfold params_ok. unfold INT_MAX in *. lia.
  - apply solver_new_negative. lia.
  - constructor.
Qed.

(** On the empty grid the pivot search evaluates nothing and returns its
    initial pair with residual 0; the step then divides by it. *)
Lemma find_pivot_negative (gs iters : Z) (w : world) :
  (gs < 0)%Z ->
  find_pivot (initial_solver gs iters) w = Ok ((real2.make 0 0, 0), w).
Proof.
  intros Hgs. unfold find_pivot, initial_solver. cbn [m_coeff].
  replace (Z.to_nat (gs + 1)) with O by lia. reflexivity.
Qed.

Lemma step_negative (gs iters : Z) (w : world) :
  (gs < 0)%Z -> step (initial_solver gs iters) w = Err DivisionByZero.
Proof.
  intros Hgs. unfold step.
  rewrite (bind_ok _ _ _ _ _ (find_pivot_negative gs iters w Hgs)).
  apply bind_err. unfold lift. now rewrite real_div_zero.
Qed.

(** * The claims *)

(** C7. For a solver constructed with [grid_size = n], [n >= 1], the candidate
    grid consists of exactly [n + 1] nodes, the node of index [i] being
    [-cos(pi * i / n) * 0.999999999999999]; every node lies strictly between
    [-1] and [1], so that the argument [d] of the square-root term of the
    target function stays strictly inside [(-1, 1)] and [f] is defined on
    every grid ordinate. *)
Theorem grid_nodes_strictly_inside (n iters : Z) :
  (1 <= n < INT_MAX)%Z ->
  exists s,
    solver_new n iters = Ok s /\
    length (m_coeff s) = Z.to_nat (n + 1) /\
    forall i, (0 <= i <= n)%Z ->
      let node := nth (Z.to_nat i) (m_coeff s) 0 in
      node = - cos (PI * IZR i / IZR n)
             * (999999999999999 / 1000000000000000) /\
      -1 < node < 1 /\
      -1 < (node + 1) / 2 < 1 /\
      forall x, f x node = Ok (fval x node).
Proof.
  intros Hn. exists (initial_solver n iters).
  split; [apply solver_new_initial; lia | ].
  cbn [initial_solver m_coeff]. rewrite length_map, length_seq.
  split; [reflexivity | ].
  intros i Hi. cbv zeta.
  set (g := fun i0 : nat => cheb_val (Z.of_nat i0) n).
  assert (nth (Z.to_nat i) (map g (seq 0 (Z.to_nat (n + 1)))) 0
          = cheb_val i n) as E.
  { rewrite (nth_indep _ 0 (g O)) by (rewrite length_map, length_seq; lia).
    rewrite map_nth, seq_nth by lia. unfold g. cbn [Nat.add].
    now rewrite Z2Nat.id by lia. }
  rewrite E.
  assert (-1 < cheb_val i n < 1) as Hb.
  { apply (cheb_bound i n). apply cheb_defined. lia. }
  split; [reflexivity | ]. split; [exact Hb | ]. split; [lra | ].
  intros x. apply f_defined. now apply f_dom_open.
Qed.

Lemma grid_nodes_strictly_inside_witness :
  exists s,
    solver_new 1 1 = Ok s /\
    length (m_coeff s) = Z.to_nat (1 + 1) /\
    forall i, (0 <= i <= 1)%Z ->
      let node := nth (Z.to_nat i) (m_coeff s) 0 in
      node = - cos (PI * IZR i / IZR 1)
             * (999999999999999 / 1000000000000000) /\
      -1 < node < 1 /\
      -1 < (node + 1) / 2 < 1 /\
      forall x, f x node = Ok (fval x node).
Proof.
  apply (grid_nodes_strictly_inside 1 1). unfold INT_MAX. lia.
Defined.

(** C1. In every solver state reached after [k] completed steps
    ([0 <= k <= iters]) and for every pair [(x, y)] at which [f] is defined,
    [eval_ek(x, y)] returns exactly
    [f(x, y) + sum_{i < k} sum_{j < k} M[j][i] * f(pivot[i].x, y)
    * f(x, pivot[j].y)], all the values of [f] involved being defined; the
    sum counts every matrix entry, so skipping the entries that are exactly
    zero does not change the result.  Where [f] is not defined [eval_ek]
    propagates its error. *)
Theorem eval_ek_invariant (gs iters : Z) (k : nat) (s : solver) (w : world)
  (x y : R) :
  reach gs iters k s w ->
  length (m_pivots s) = k /\ (k <= Z.to_nat iters)%nat /\
  (forall e, f x y = Err e -> eval_ek s x y w = Err e) /\
  (forall fxy, f x y = Ok fxy ->
     exists (a b : nat -> R) (w' : world),
       (forall i, (i < k)%nat ->
                  f (real2.x (pivot s i)) y = Ok (a i) /\
                  f x (real2.y (pivot s i)) = Ok (b i)) /\
       eval_ek s x y w
       = Ok (fxy + sum_n k (fun i => sum_n k (fun j =>
                     mat (m_ek s) j i * a i * b j)), w')).
Proof.
  intros Hr. destruct (reach_ok _ _ _ _ _ Hr) as [Hs Hw].
  pose proof (ok_size _ _ _ _ Hs) as Hk.
  split; [exact Hk | ]. split; [apply (ok_capacity _ _ _ _ Hs) | ]. split.
  - intros e He. destruct (f_dom_dec y) as [Hd | Hd].
    + rewrite (f_defined x y Hd) in He. discriminate.
    + rewrite (f_undefined x y Hd) in He. injection He as <-.
      unfold eval_ek. apply bind_err. now apply eval_f_fails.
  - intros fxy Hf. apply f_Ok_inv in Hf as [Hd ->].
    destruct (eval_ek_runs gs iters k s x y w Hs Hw Hd)
      as (v & w' & E & _ & _ & -> & _).
    exists (fun i => fval (real2.x (pivot s i)) y),
           (fun i => fval x (real2.y (pivot s i))), w'.
    split.
    + intros i Hi. split; apply f_defined; [exact Hd | ].
      apply f_dom_open. now apply (solver_ok_pivot gs iters k s i Hs).
    + rewrite E. unfold residual. now rewrite Hk.
Qed.

Lemma eval_ek_invariant_witness :
  exists (s : solver) (w : world),
    reach 1 1 1 s w /\
    length (m_pivots s) = 1%nat /\
    mat (m_ek s) 0 0 <> 0 /\
    f 0 0 = Ok (fval 0 0) /\
    (forall fxy, f 0 0 = Ok fxy ->
       exists (a b : nat -> R) (w' : world),
         (forall i, (i < 1)%nat ->
                    f (real2.x (pivot s i)) 0 = Ok (a i) /\
                    f 0 (real2.y (pivot s i)) = Ok (b i)) /\
         eval_ek s 0 0 w
         = Ok (fxy + sum_n 1 (fun i => sum_n 1 (fun j =>
                       mat (m_ek s) j i * a i * b j)), w')).
Proof.
  destruct (first_step_state 1 1 ltac:(unfold INT_MAX; lia)
              ltac:(unfold INT_MAX; lia))
    as (p & v & w1 & s1 & w' & _ & _ & _ & Hr & _ & Hpiv & Hne).
  exists s1, w'.
  destruct (eval_ek_invariant 1 1 1 s1 w' 0 0 Hr) as (Hlen & _ & _ & Hsum).
  split; [exact Hr | ]. split; [exact Hlen | ]. split; [exact Hne | ].
  split; [apply f_defined, f_dom_open; lra | exact Hsum].
Defined.

(** The zeroing property of the rank update, over the real numbers: once a
    step with a selected residual [v] that is not zero has updated the
    coefficients and appended the chosen pivot [p], the error function at
    [p] under the updated matrix is [v - v * v * (1 / v)], which is 0 in
    the field of the real numbers.  The program forms [1 / v], the cross
    vectors and the sums in the working precision of [lol::real], where
    [v * (1 / v)] is a rounded product: this is a property of the algorithm
    and does not settle which value the program returns there, which is a
    matter of the rounding of [lol::real]. *)
Theorem step_zeroes_new_pivot (gs iters : Z) (k : nat) (s s' : solver)
  (w w1 w' : world) (p : real2) (v : R) :
  reach gs iters k s w ->
  find_pivot s w = Ok ((p, v), w1) ->
  v <> 0 ->
  step s w = Ok (s', w') ->
  m_pivots s' = m_pivots s ++ [p] /\
  length (m_pivots s') = Datatypes.S k /\
  exists w'', eval_ek s' (real2.x p) (real2.y p) w' = Ok (0, w'').
Proof.
  intros Hr Hfind Hv Hstep. destruct (reach_ok _ _ _ _ _ Hr) as [Hs Hw].
  destruct (runs_unique _ _ _ _ _ (find_pivot_runs gs iters k s w Hs Hw) Hfind)
    as (_ & _ & Hscan & _).
  destruct (step_inv gs iters k s s' w w' Hs Hw Hstep)
    as (p0 & v0 & Hscan0 & _ & Hk & Hpost & Hs' & Hw' & _).
  rewrite <- Hscan in Hscan0. injection Hscan0 as <- <-.
  destruct Hpost as (_ & _ & _ & Hp & _ & _ & Hmat).
  rewrite (ok_size _ _ _ _ Hs) in Hmat.
  destruct (scan_pivot_dom gs iters k s p v Hs (eq_sym Hscan) Hv)
    as (_ & Hpy & Ev).
  split; [exact Hp | ]. split; [apply (ok_size _ _ _ _ Hs') | ].
  destruct (eval_ek_runs gs iters (Datatypes.S k) s' (real2.x p) (real2.y p) w'
              Hs' Hw')
    as (r & w'' & E & _ & _ & -> & _).
  { apply f_dom_open. now apply (solver_ok_coeff gs iters k s). }
  exists w''. rewrite E. f_equal. f_equal.
  rewrite (residual_step gs iters k s s' p (1 / v) _ _ Hs Hp Hmat).
  rewrite <- Ev. now field.
Qed.

Lemma step_zeroes_new_pivot_witness :
  exists (s' : solver) (w1 w' : world) (p : real2) (v : R),
    find_pivot (initial_solver 1 1) world_init = Ok ((p, v), w1) /\
    v <> 0 /\
    step (initial_solver 1 1) world_init = Ok (s', w') /\
    m_pivots s' = m_pivots (initial_solver 1 1) ++ [p] /\
    length (m_pivots s') = 1%nat /\
    exists w'', eval_ek s' (real2.x p) (real2.y p) w' = Ok (0, w'').
Proof.
  destruct (first_step 1 1) as (p & v & w1 & s1 & w' & Hfind & Hv & Hstep);
    [unfold INT_MAX; lia | unfold INT_MAX; lia | ].
  exists s1, w1, w', p, v.
  split; [exact Hfind | ]. split; [exact Hv | ]. split; [exact Hstep | ].
  apply (step_zeroes_new_pivot 1 1 O (initial_solver 1 1) s1
           world_init w1 w' p v); auto.
  apply reach_initial; unfold INT_MAX; lia.
Defined.

(** C4 as stated does not hold: a nonzero residual does not make the step
    complete.  The first step of [solver(1, 0)] selects a residual that is
    not zero and then indexes the 0 by 0 coefficient matrix outside its
    bounds. *)
Lemma nonzero_residual_step_fails :
  exists (p : real2) (v : R) (w1 : world),
    reach 1 0 O (initial_solver 1 0) world_init /\
    find_pivot (initial_solver 1 0) world_init = Ok ((p, v), w1) /\
    v <> 0 /\
    step (initial_solver 1 0) world_init = Err OutOfBounds /\
    forall s' w', step (initial_solver 1 0) world_init <> Ok (s', w').
Proof.
  assert (reach 1 0 O (initial_solver 1 0) world_init) as Hr
    by (apply reach_initial; unfold INT_MAX; lia).
  destruct (reach_ok _ _ _ _ _ Hr) as [Hs Hw].
  destruct (find_pivot_runs 1 0 O _ world_init Hs Hw)
    as ([p v] & w1 & E & _ & _ & Hscan & _).
  assert (v <> 0) as Hv.
  { apply (scan_initial_nonzero 1 0 (initial_solver 1 0) p); auto.
    apply initial_coeff_nonempty. lia. }
  assert (step (initial_solver 1 0) world_init = Err OutOfBounds) as Hoob
    by now apply (step_oob 1 0 O (initial_solver 1 0) world_init p v).
  exists p, v, w1. repeat split; auto.
  intros s' w' E'. rewrite Hoob in E'. discriminate.
Qed.

(** C4, amended.  In every reachable state the pivot search returns a pair
    and its residual [v]; the step fails with the division error if and only
    if [v] is exactly zero, and when [v] is not zero and fewer than [iters]
    pivots have been selected, the step completes without error. *)
Theorem step_division_error_iff (gs iters : Z) (k : nat) (s : solver)
  (w : world) :
  reach gs iters k s w ->
  exists (p : real2) (v : R) (w1 : world),
    find_pivot s w = Ok ((p, v), w1) /\
    (step s w = Err DivisionByZero <-> v = 0) /\
    (v <> 0 -> (k < Z.to_nat iters)%nat ->
     exists s' w', step s w = Ok (s', w')).
Proof.
  intros Hr. destruct (reach_ok _ _ _ _ _ Hr) as [Hs Hw].
  destruct (find_pivot_runs gs iters k s w Hs Hw)
    as ([p v] & w1 & E & _ & _ & Hscan & _).
  exists p, v, w1. split; [exact E | ]. symmetry in Hscan. split.
  - split.
    + intros Herr. destruct (Req_dec_T v 0) as [Hv | Hv]; [exact Hv | ].
      pose proof (ok_capacity _ _ _ _ Hs) as Hcap.
      destruct (Nat.eq_dec k (Z.to_nat iters)) as [Hk | Hk].
      * rewrite (step_oob gs iters k s w p v Hs Hw Hscan Hv Hk) in Herr.
        discriminate.
      * destruct (step_runs gs iters k s w p v Hs Hw Hscan Hv)
          as (s' & w' & E' & _); [lia | ].
        rewrite E' in Herr. discriminate.
    + intros ->. now apply (step_div_error gs iters k s w p).
  - intros Hv Hk.
    destruct (step_runs gs iters k s w p v Hs Hw Hscan Hv Hk)
      as (s' & w' & E' & _).
    now exists s', w'.
Qed.

Lemma step_division_error_iff_witness :
  (exists (p : real2) (v : R) (w1 : world) (s' : solver) (w' : world),
     find_pivot (initial_solver 1 1) world_init = Ok ((p, v), w1) /\
     v <> 0 /\ (0 < Z.to_nat 1)%nat /\
     step (initial_solver 1 1) world_init = Ok (s', w') /\
     (step (initial_solver 1 1) world_init = Err DivisionByZero <-> v = 0)) /\
  (exists (p : real2) (w1 : world),
     find_pivot (initial_solver (-1) 1) world_init = Ok ((p, 0), w1) /\
     step (initial_solver (-1) 1) world_init = Err DivisionByZero).
Proof.
  split.
  - destruct (step_division_error_iff 1 1 O (initial_solver 1 1) world_init)
      as (p & v & w1 & Hfind & Hiff & Hcomp);
      [apply reach_initial; unfold INT_MAX; lia | ].
    destruct (first_step 1 1 ltac:(unfold INT_MAX; lia)
                ltac:(unfold INT_MAX; lia))
      as (p0 & v0 & w0 & _ & _ & Hfind0 & Hv0 & _).
    rewrite Hfind in Hfind0. injection Hfind0 as <- <- <-.
    assert (0 < Z.to_nat 1)%nat as Hlt by (change (Z.to_nat 1) with 1%nat; lia).
    destruct (Hcomp Hv0 Hlt) as (s' & w' & Hstep).
    exists p, v, w1, s', w'. auto.
  - destruct (step_division_error_iff (-1) 1 O (initial_solver (-1) 1)
                world_init)
      as (p & v & w1 & Hfind & Hiff & _);
      [apply reach_negative; unfold INT_MAX; lia | ].
    pose proof (find_pivot_negative (-1) 1 world_init ltac:(lia)) as Hfind0.
    rewrite Hfind in Hfind0. injection Hfind0 as -> -> ->.
    exists (real2.make 0 0), world_init. split; [exact Hfind | ].
    now apply Hiff.
Defined.

Lemma bind_ext {A B : Type} (m : M A) (k k' : A -> M B) (w : world) :
  (forall a w', k a w' = k' a w') -> bind m k w = bind m k' w.
Proof.
  intros H. unfold bind. destruct (m w) as [[a w'] | e]; auto.
Qed.

Lemma for_n_ext {S : Type} (n : nat) (body body' : nat -> S -> M S) :
  (forall i a w, (i < n)%nat -> body i a w = body' i a w) ->
  forall acc w, for_n n body acc w = for_n n body' acc w.
Proof.
  intros H. induction n as [| n IH]; intros acc w; cbn [for_n];
    [reflexivity | ].
  unfold bind. rewrite IH by (intros; apply H; lia).
  destruct (for_n n body' acc w) as [[a w'] | e]; auto.
Qed.

(** C10. In every reachable solver state with [k] completed steps, every
    entry [M[j][i]] of the [iters] by [iters] matrix with [i >= k] or
    [j >= k] is exactly zero; a step at pivot count [k] leaves every entry
    outside the rows and columns [0..k] as it was; and the result of
    [eval_ek] depends only on the pivots and on the top-left [k] by [k]
    block. *)
Theorem unused_region_stays_zero (gs iters : Z) (k : nat) (s : solver)
  (w : world) :
  reach gs iters k s w ->
  (forall j i, (j < Z.to_nat iters)%nat -> (i < Z.to_nat iters)%nat ->
               (k <= i \/ k <= j)%nat ->
               array2d_get (m_ek s) j i = Ok 0) /\
  (forall s' w', step s w = Ok (s', w') ->
                 forall j i, (k < i \/ k < j)%nat ->
                             mat (m_ek s') j i = mat (m_ek s) j i) /\
  (forall (s2 : solver) (x y : R) (w0 : world),
      m_pivots s2 = m_pivots s ->
      a_rows (m_ek s2) = a_rows (m_ek s) ->
      a_cols (m_ek s2) = a_cols (m_ek s) ->
      (forall j i, (j < k)%nat -> (i < k)%nat ->
                   mat (m_ek s2) j i = mat (m_ek s) j i) ->
      eval_ek s2 x y w0 = eval_ek s x y w0).
Proof.
  intros Hr. destruct (reach_ok _ _ _ _ _ Hr) as [Hs Hw].
  pose proof (ok_size _ _ _ _ Hs) as Hk.
  split; [ | split].
  - intros j i Hj Hi Hji.
    rewrite (array2d_get_ok (Z.to_nat iters)); auto.
    + now rewrite (ok_unused _ _ _ _ Hs).
    + apply (ok_matrix _ _ _ _ Hs).
  - intros s' w' Hstep j i Hji.
    destruct (step_inv gs iters k s s' w w' Hs Hw Hstep)
      as (p & v & _ & _ & _ & Hpost & _).
    destruct Hpost as (_ & _ & _ & _ & _ & _ & Hmat).
    rewrite Hmat, Hk.
    destruct (Nat.leb_spec i k), (Nat.leb_spec j k); cbn [andb]; auto; lia.
  - intros s2 x y w0 Hp Hrows Hcols Hm. unfold eval_ek. rewrite Hp, Hk.
    change (eval_f s2 x y) with (eval_f s x y).
    apply bind_ext. intros ret0 w1.
    apply for_n_ext. intros i a w2 Hi.
    apply for_n_ext. intros j b w3 Hj.
    assert (array2d_get (m_ek s2) j i = array2d_get (m_ek s) j i) as ->.
    { unfold array2d_get, in_bounds. now rewrite Hrows, Hcols, Hm. }
    unfold pivot. rewrite Hp. reflexivity.
Qed.

Lemma unused_region_stays_zero_witness :
  exists (s1 : solver) (w1 : world),
    step (initial_solver 1 2) world_init = Ok (s1, w1) /\
    reach 1 2 1 s1 w1 /\
    mat (m_ek s1) 0 0 <> 0 /\
    (forall j i, (0 < i \/ 0 < j)%nat ->
                 mat (m_ek s1) j i = mat (m_ek (initial_solver 1 2)) j i) /\
    (forall j i, (j < Z.to_nat 2)%nat -> (i < Z.to_nat 2)%nat ->
                 (1 <= i \/ 1 <= j)%nat ->
                 array2d_get (m_ek s1) j i = Ok 0) /\
    (forall (s2 : solver) (x y : R) (w0 : world),
        m_pivots s2 = m_pivots s1 ->
        a_rows (m_ek s2) = a_rows (m_ek s1) ->
        a_cols (m_ek s2) = a_cols (m_ek s1) ->
        (forall j i, (j < 1)%nat -> (i < 1)%nat ->
                     mat (m_ek s2) j i = mat (m_ek s1) j i) ->
        eval_ek s2 x y w0 = eval_ek s1 x y w0).
Proof.
  destruct (first_step_state 1 2 ltac:(unfold INT_MAX; lia)
              ltac:(unfold INT_MAX; lia))
    as (p & v & w0 & s1 & w1 & _ & _ & Hstep & Hr1 & _ & _ & Hne).
  exists s1, w1.
  destruct (unused_region_stays_zero 1 2 O (initial_solver 1 2) world_init)
    as (_ & Hkeep & _); [apply reach_initial; unfold INT_MAX; lia | ].
  destruct (unused_region_stays_zero 1 2 1 s1 w1 Hr1) as (Hzero & _ & Hdep).
  split; [exact Hstep | ]. split; [exact Hr1 | ]. split; [exact Hne | ].
  split; [exact (Hkeep s1 w1 Hstep) | ]. split; [exact Hzero | exact Hdep].
Defined.

(** ** The cache *)

Lemma world_from_ok (w0 w : world) :
  cache_ok w0 -> world_from w0 w -> cache_ok w /\ extends w0 w.
Proof.
  intros H0. induction 1 as [| self x y v w w' _ [IHok IHex] E].
  - split; [exact H0 | apply extends_refl].
  - destruct (eval_f_inv self x y v w w' IHok E) as (Hok & Hex & _).
    split; [exact Hok | eapply extends_trans; eauto].
Qed.

Lemma cache_ok_entry (w : world) (x y v : R) :
  cache_ok w -> In (x, y) (f_calls w) -> f x y = Ok v -> In (x, y, v) (cache w).
Proof.
  intros (Hval & Hkeys & _) Hin Hf. rewrite <- Hkeys in Hin.
  apply in_map_iff in Hin as ([[x0 y0] v0] & Ek & Hin).
  unfold key in Ek. cbn [fst snd] in Ek. injection Ek as -> ->.
  pose proof (Hval _ _ _ Hin) as Hf'. rewrite Hf in Hf'. now injection Hf' as ->.
Qed.

Lemma eval_f_repeat (s1 s2 : solver) (x y v : R) (w w' : world) :
  cache_ok w -> eval_f s1 x y w = Ok (v, w') ->
  eval_f s2 x y w' = Ok (v, w') /\ exists l, cache w' = cache w ++ l.
Proof.
  intros Hw E.
  destruct (eval_f_inv s1 x y v w w' Hw E) as (Hok & Hex & Hd & ->).
  destruct (runs_unique _ _ _ _ _ (eval_f_runs s1 x y w Hw Hd) E)
    as (_ & _ & _ & Hin).
  destruct (eval_f_hit s2 x y w' Hin Hok) as (v' & E' & Hf').
  rewrite (f_defined x y Hd) in Hf'. injection Hf' as <-.
  split; [exact E' | apply Hex].
Qed.

(** C5. Once [eval_f(x, y)] has returned a value [v], which is the value of
    [f] at [(x, y)], every later call with the same coordinates, through
    whichever solver object, returns the same [v], and it leaves the cache
    and the log of the applications of [f] as they were: it is answered from
    the cache.  No coordinate pair occurs twice in the log, that is, [f] is
    applied at most once per pair; and the cache only grows, by appending. *)
Theorem eval_f_memoised (w w1 w2 : world) (self self' : solver) (x y v : R) :
  world_reach w ->
  eval_f self x y w = Ok (v, w1) ->
  world_from w1 w2 ->
  f x y = Ok v /\
  eval_f self' x y w2 = Ok (v, w2) /\
  NoDup (f_calls w2) /\
  In (x, y) (f_calls w2) /\
  In (x, y, v) (cache w2) /\
  (exists l, cache w1 = cache w ++ l) /\
  (exists l, cache w2 = cache w1 ++ l).
Proof.
  intros Hw E Hfrom. apply world_reach_ok in Hw.
  destruct (eval_f_inv self x y v w w1 Hw E) as (Hok1 & Hex1 & Hd & Ev).
  destruct (runs_unique _ _ _ _ _ (eval_f_runs self x y w Hw Hd) E)
    as (_ & _ & _ & Hin1).
  destruct (world_from_ok w1 w2 Hok1 Hfrom) as [Hok2 Hex2].
  pose proof (extends_calls w1 w2 (x, y) Hex2 Hin1) as Hin2.
  assert (f x y = Ok v) as Hf by (rewrite Ev; now apply f_defined).
  destruct (eval_f_hit self' x y w2 Hin2 Hok2) as (v' & E' & Hf').
  rewrite Hf in Hf'. injection Hf' as <-.
  split; [exact Hf | ]. split; [exact E' | ].
  split; [apply Hok2 | ]. split; [exact Hin2 | ].
  split; [now apply cache_ok_entry | ].
  split; [apply Hex1 | apply Hex2].
Qed.

Lemma eval_f_first_call (self : solver) :
  eval_f self 0 0 world_init
  = Ok (fval 0 0, {| cache := [(0, 0, fval 0 0)]; f_calls := [(0, 0)] |}).
Proof.
  unfold eval_f, bind, call_f, cache_push. cbn [world_init cache cache_find].
  rewrite (f_defined 0 0) by (apply f_dom_open; lra). reflexivity.
Qed.

Lemma eval_f_memoised_witness :
  f 0 0 = Ok (fval 0 0) /\
  eval_f (initial_solver 2 2) 0 0
         {| cache := [(0, 0, fval 0 0)]; f_calls := [(0, 0)] |}
  = Ok (fval 0 0, {| cache := [(0, 0, fval 0 0)]; f_calls := [(0, 0)] |}) /\
  NoDup [(0, 0)] /\
  In (0, 0) [(0, 0)] /\
  In (0, 0, fval 0 0) [(0, 0, fval 0 0)] /\
  (exists l, [(0, 0, fval 0 0)] = [] ++ l) /\
  (exists l, [(0, 0, fval 0 0)] = [(0, 0, fval 0 0)] ++ l).
Proof.
  apply (eval_f_memoised world_init
           {| cache := [(0, 0, fval 0 0)]; f_calls := [(0, 0)] |}
           {| cache := [(0, 0, fval 0 0)]; f_calls := [(0, 0)] |}
           (initial_solver 1 1) (initial_solver 2 2) 0 0 (fval 0 0)).
  - apply wr_init.
  - apply eval_f_first_call.
  - apply wf_here.
Defined.

(** C6 as stated does not hold: the cache is not scoped to a solver object.
    After a call of [eval_f] through the solver [solver(1, 1)], the solver
    [solver(2, 2)], a different object, finds the cache non-empty, and its
    own call at the same point is answered from the entry written through
    the first one, [f] having been applied once in all. *)
Lemma cache_not_scoped_to_solver :
  exists (sA sB : solver) (v : R) (w1 : world),
    solver_new 1 1 = Ok sA /\ solver_new 2 2 = Ok sB /\ sA <> sB /\
    eval_f sA 0 0 world_init = Ok (v, w1) /\
    cache w1 <> [] /\
    f_calls w1 = [(0, 0)] /\
    eval_f sB 0 0 w1 = Ok (v, w1).
Proof.
  exists (initial_solver 1 1), (initial_solver 2 2), (fval 0 0),
         {| cache := [(0, 0, fval 0 0)]; f_calls := [(0, 0)] |}.
  split; [apply solver_new_initial; lia | ].
  split; [apply solver_new_initial; lia | ].
  split.
  { intros E. apply (f_equal m_grid_size) in E. discriminate. }
  split; [apply eval_f_first_call | ].
  split; [discriminate | ]. split; [reflexivity | ].
  apply (eval_f_repeat (initial_solver 1 1) (initial_solver 2 2) 0 0
           (fval 0 0) world_init).
  - apply cache_ok_init.
  - apply eval_f_first_call.
Qed.

(** C6, amended.  The evaluation cache is one store for the whole process,
    shared by all solver objects: a call of [eval_f] through one solver
    object has the result and the effect on the cache of the same call
    through any other, and once a point has been evaluated through one
    object a call at that point through another is answered from that
    entry. *)
Theorem cache_is_process_wide (s1 s2 : solver) (x y v : R) (w w' : world) :
  world_reach w ->
  eval_f s1 x y w = Ok (v, w') ->
  eval_f s2 x y w = Ok (v, w') /\
  eval_f s2 x y w' = Ok (v, w') /\
  (exists l, cache w' = cache w ++ l).
Proof.
  intros Hw E. split; [exact E | ].
  apply world_reach_ok in Hw.
  now apply (eval_f_repeat s1 s2 x y v w w').
Qed.

Lemma cache_is_process_wide_witness :
  eval_f (initial_solver 2 2) 0 0 world_init
  = Ok (fval 0 0, {| cache := [(0, 0, fval 0 0)]; f_calls := [(0, 0)] |}) /\
  eval_f (initial_solver 2 2) 0 0
         {| cache := [(0, 0, fval 0 0)]; f_calls := [(0, 0)] |}
  = Ok (fval 0 0, {| cache := [(0, 0, fval 0 0)]; f_calls := [(0, 0)] |}) /\
  (exists l, [(0, 0, fval 0 0)] = cache world_init ++ l).
Proof.
  apply (cache_is_process_wide (initial_solver 1 1) (initial_solver 2 2) 0 0
           (fval 0 0) world_init
           {| cache := [(0, 0, fval 0 0)]; f_calls := [(0, 0)] |}).
  - apply wr_init.
  - apply eval_f_first_call.
Defined.

(** C8 as stated does not hold: nothing is checked at construction.
    [solver(1, 0)] is constructed without error, and the step then requested
    of it indexes the 0 by 0 coefficient matrix outside its bounds. *)
Lemma capacity_not_checked :
  solver_new 1 0 = Ok (initial_solver 1 0) /\
  step (initial_solver 1 0) world_init = Err OutOfBounds.
Proof.
  split; [apply solver_new_initial; lia | ].
  destruct (reach_ok _ _ _ _ _
              (reach_initial 1 0 ltac:(unfold INT_MAX; lia)
                 ltac:(unfold INT_MAX; lia))) as [Hs Hw].
  destruct (scan (initial_solver 1 0)) as [p v] eqn:Hscan.
  apply (step_oob 1 0 O (initial_solver 1 0) world_init p v); auto.
  apply (scan_initial_nonzero 1 0 (initial_solver 1 0) p); auto.
  apply initial_coeff_nonempty. lia.
Qed.

(** C8, amended.  The capacity is not checked, at construction or later:
    the constructor succeeds for every [iters] from 0 to [INT_MAX], whatever
    number of steps the caller goes on to request.  A step taken with fewer
    than [iters] pivots never indexes the matrix outside its bounds; a step
    taken with [iters] pivots and a selected residual that is not zero does
    index it outside its bounds. *)
Theorem capacity_is_callers_obligation (gs iters : Z) (k : nat) (s : solver)
  (w : world) :
  reach gs iters k s w ->
  (forall iters', (0 <= iters' <= INT_MAX)%Z ->
                  exists s0, solver_new gs iters' = Ok s0) /\
  ((k < Z.to_nat iters)%nat -> step s w <> Err OutOfBounds) /\
  (k = Z.to_nat iters ->
   forall p v w1, find_pivot s w = Ok ((p, v), w1) -> v <> 0 ->
                  step s w = Err OutOfBounds).
Proof.
  intros Hr. destruct (reach_ok _ _ _ _ _ Hr) as [Hs Hw].
  destruct (scan s) as [p v] eqn:Hscan.
  split; [ | split].
  - intros iters' _. unfold solver_new.
    rewrite (ok_coeff _ _ _ _ Hs). cbn [rbind]. eexists. reflexivity.
  - intros Hk Herr. destruct (Req_dec_T v 0) as [-> | Hv].
    + rewrite (step_div_error gs iters k s w p Hs Hw Hscan) in Herr.
      discriminate.
    + destruct (step_runs gs iters k s w p v Hs Hw Hscan Hv Hk)
        as (s' & w' & E' & _).
      rewrite E' in Herr. discriminate.
  - intros Hk p0 v0 w1 Hfind Hv0.
    destruct (runs_unique _ _ _ _ _
                (find_pivot_runs gs iters k s w Hs Hw) Hfind)
      as (_ & _ & Hscan0 & _).
    now apply (step_oob gs iters k s w p0 v0).
Qed.

Lemma capacity_is_callers_obligation_witness :
  (exists (s' : solver) (w' : world),
     (0 < Z.to_nat 1)%nat /\
     step (initial_solver 1 1) world_init = Ok (s', w') /\
     step (initial_solver 1 1) world_init <> Err OutOfBounds) /\
  (exists (p : real2) (v : R) (w1 : world),
     O = Z.to_nat 0 /\
     find_pivot (initial_solver 1 0) world_init = Ok ((p, v), w1) /\
     v <> 0 /\
     step (initial_solver 1 0) world_init = Err OutOfBounds) /\
  (forall iters', (0 <= iters' <= INT_MAX)%Z ->
                  exists s0, solver_new 1 iters' = Ok s0).
Proof.
  assert (1 <= 1 < INT_MAX)%Z as Hgs by (unfold INT_MAX; lia).
  destruct (capacity_is_callers_obligation 1 1 O (initial_solver 1 1)
              world_init) as (_ & Hin & _);
    [apply reach_initial; unfold INT_MAX; lia | ].
  destruct (capacity_is_callers_obligation 1 0 O (initial_solver 1 0)
              world_init) as (Hnew & _ & Hout);
    [apply reach_initial; unfold INT_MAX; lia | ].
  split; [ | split; [ | exact Hnew]].
  - destruct (first_step 1 1 Hgs ltac:(unfold INT_MAX; lia))
      as (_ & _ & _ & s' & w' & _ & _ & Hstep).
    assert (0 < Z.to_nat 1)%nat as Hlt by (change (Z.to_nat 1) with 1%nat; lia).
    exists s', w'. split; [exact Hlt | ]. split; [exact Hstep | ].
    exact (Hin Hlt).
  - destruct (reach_ok _ _ _ _ _
                (reach_initial 1 0 Hgs ltac:(unfold INT_MAX; lia)))
      as [Hs Hw].
    destruct (find_pivot_runs 1 0 O _ world_init Hs Hw)
      as ([p0 v0] & w1 & E & _ & _ & Hscan & _).
    assert (v0 <> 0) as Hv0.
    { apply (scan_initial_nonzero 1 0 (initial_solver 1 0) p0); auto.
      apply initial_coeff_nonempty. lia. }
    exists p0, v0, w1. split; [reflexivity | ]. split; [exact E | ].
    split; [exact Hv0 | ].
    exact (Hout eq_refl p0 v0 w1 E Hv0).
Defined.

(** ** The pivot search *)

(** In every reachable state the pivot search evaluates the error function
    at each pair of the cross product of the candidate grid with itself,
    [(grid_size + 1)^2] pairs scanned with [y] in the outer loop and [x] in
    the inner one, and it selects a pair whose residual has maximal absolute
    value over these pairs.  The comparison of the scan is [>=]: every pair
    after the selected one has a residual of strictly smaller magnitude, so
    that among pairs of equal, maximal magnitude the one met last is
    selected.  Whether two distinct pairs of equal maximal magnitude are
    ever met depends on the values the arithmetic returns, and is not
    settled here. *)
Theorem pivot_is_last_maximum (gs iters : Z) (k : nat) (s : solver)
  (w : world) :
  reach gs iters k s w ->
  exists (p : real2) (v : R) (w1 : world),
    find_pivot s w = Ok ((p, v), w1) /\
    length (scan_pairs s) = (Z.to_nat (gs + 1) * Z.to_nat (gs + 1))%nat /\
    (forall q, In q (scan_pairs s) ->
               In q (f_calls w1) /\
               exists w2, eval_ek s (fst q) (snd q) w
                          = Ok (residual s (fst q) (snd q), w2)) /\
    (scan_pairs s <> [] ->
     exists l1 l2,
       scan_pairs s = l1 ++ (real2.x p, real2.y p) :: l2 /\
       v = residual s (real2.x p) (real2.y p) /\
       (forall q, In q l1 -> fabs (residual s (fst q) (snd q)) <= fabs v) /\
       (forall q, In q l2 -> fabs (residual s (fst q) (snd q)) < fabs v)).
Proof.
  intros Hr. destruct (reach_ok _ _ _ _ _ Hr) as [Hs Hw].
  destruct (find_pivot_runs gs iters k s w Hs Hw)
    as ([p v] & w1 & E & _ & _ & Hscan & Hseen).
  exists p, v, w1. split; [exact E | ]. split; [ | split].
  - now rewrite scan_pairs_length, (solver_ok_coeff_length gs iters k s Hs).
  - intros q Hq. split; [now apply Hseen | ].
    destruct (eval_ek_runs gs iters k s (fst q) (snd q) w Hs Hw)
      as (r & w2 & E2 & _ & _ & -> & _).
    + apply f_dom_open. apply (solver_ok_coeff gs iters k s _ Hs).
      now apply scan_pairs_coeff.
    + now exists w2.
  - intros Hne.
    destruct (scan_spec s) as [[Ee _] | (l1 & q & l2 & El & Es & H1 & H2)];
      [contradiction | ].
    rewrite <- Hscan in Es. injection Es as -> ->. cbn [real2.x real2.y].
    exists l1, l2. split; [ | split; [reflexivity | split; assumption]].
    rewrite El. now destruct q.
Qed.

Lemma pivot_is_last_maximum_witness :
  exists (s : solver) (w : world) (p : real2) (v : R) (w1 : world),
    reach 1 2 1 s w /\
    mat (m_ek s) 0 0 <> 0 /\
    find_pivot s w = Ok ((p, v), w1) /\
    length (scan_pairs s) = 4%nat /\
    (forall q, In q (scan_pairs s) ->
               In q (f_calls w1) /\
               exists w2, eval_ek s (fst q) (snd q) w
                          = Ok (residual s (fst q) (snd q), w2)) /\
    exists l1 l2,
      scan_pairs s = l1 ++ (real2.x p, real2.y p) :: l2 /\
      v = residual s (real2.x p) (real2.y p) /\
      (forall q, In q l1 -> fabs (residual s (fst q) (snd q)) <= fabs v) /\
      (forall q, In q l2 -> fabs (residual s (fst q) (snd q)) < fabs v).
Proof.
  destruct (first_step_state 1 2 ltac:(unfold INT_MAX; lia)
              ltac:(unfold INT_MAX; lia))
    as (_ & _ & _ & s1 & w1 & _ & _ & _ & Hr1 & _ & _ & Hne).
  destruct (pivot_is_last_maximum 1 2 1 s1 w1 Hr1)
    as (p & v & w2 & Hfind & Hlen & Hall & Hmax).
  change (Z.to_nat (1 + 1) * Z.to_nat (1 + 1))%nat with 4%nat in Hlen.
  exists s1, w1, p, v, w2.
  split; [exact Hr1 | ]. split; [exact Hne | ]. split; [exact Hfind | ].
  split; [exact Hlen | ]. split; [exact Hall | ].
  apply Hmax. intros E. rewrite E in Hlen. discriminate.
Defined.

(** ** The emitter *)

Lemma string_app_assoc (a b c : string) :
  ((a ++ b) ++ c)%string = (a ++ (b ++ c))%string.
Proof.
  induction a as [| ch a IH]; cbn; [reflexivity | now rewrite IH].
Qed.

Lemma string_app_nil_r (a : string) : (a ++ "")%string = a.
Proof.
  induction a as [| ch a IH]; cbn; [reflexivity | now rewrite IH].
Qed.

Lemma dump_pivot_block (print_real : R -> string) (s : solver) (n : nat)
  (out : string) :
  dump_pivot print_real s (Z.of_nat n) out
  = (out ++ pivot_block print_real (Datatypes.S n) (pivot s n))%string.
Proof.
  unfold dump_pivot, pivot_block. cbv zeta.
  rewrite Nat2Z.id.
  replace (Z.of_nat (Datatypes.S n) - 1)%Z with (Z.of_nat n) by lia.
  replace (Z.of_nat (Datatypes.S n)) with (Z.of_nat n + 1)%Z by lia.
  now rewrite !string_app_assoc.
Qed.

Lemma pivot_blocks_snoc (print_real : R -> string) (n : nat)
  (l : list real2) (p : real2) :
  pivot_blocks print_real n (l ++ [p])
  = (pivot_blocks print_real n l
     ++ pivot_block print_real (n + length l) p)%string.
Proof.
  revert n. induction l as [| q l IH]; intros n; cbn [pivot_blocks app length].
  - now rewrite string_app_nil_r, Nat.add_0_r.
  - rewrite IH, string_app_assoc. do 3 f_equal. lia.
Qed.

Lemma firstn_snoc_nth {A : Type} (d : A) (l : list A) (n : nat) :
  (n < length l)%nat -> firstn (Datatypes.S n) l = firstn n l ++ [nth n l d].
Proof.
  revert n. induction l as [| a l IH]; intros n Hn; cbn [length] in Hn;
    [lia | ].
  destruct n as [| n]; [reflexivity | ].
  rewrite firstn_cons, (IH n) by lia. reflexivity.
Qed.

Lemma dump_loop_blocks (print_real : R -> string) (s : solver) (c : nat)
  (out : string) :
  (c <= length (m_pivots s))%nat ->
  dump_loop print_real s c out
  = (out ++ pivot_blocks print_real 1 (firstn c (m_pivots s)))%string.
Proof.
  induction c as [| c IH]; intros Hc; cbn [dump_loop].
  - cbn. now rewrite string_app_nil_r.
  - rewrite IH by lia. rewrite dump_pivot_block, string_app_assoc.
    f_equal.
    rewrite (firstn_snoc_nth (real2.make 0 0)) by lia.
    rewrite pivot_blocks_snoc, length_firstn, Nat.min_l by lia. reflexivity.
Qed.

(** C9. Given the final pivot list, of length [L], the emitter writes, in
    this order: the definition line of [f], the line [e0(x,y)=f(x,y)], then
    for each [n] from 1 to [L] the four statements binding [x_n] and [y_n]
    to the coordinates of the pivot of rank [n], [d_n] to
    [e_{n-1}(x_n,y_n)] and [e_n(x,y)] to
    [e_{n-1}(x,y)-e_{n-1}(x_n,y)*e_{n-1}(x,y_n)/d_n], and last the one line
    [splot [-1:1][-1:1] e_L(x,y)]; with [L = 0] the text is the two
    definitions and the plot of [e0].  The text depends on the pivot list
    only: the coefficient matrix is not read. *)
Theorem dump_gnuplot_text (print_real : R -> string) (s : solver) :
  dump_gnuplot print_real s = emitted print_real (m_pivots s) /\
  (m_pivots s = [] ->
   dump_gnuplot print_real s
   = (f_line ++ e0_line ++ "splot [-1:1][-1:1] e0(x,y)" ++ nl)%string) /\
  (forall s2, m_pivots s2 = m_pivots s ->
              dump_gnuplot print_real s2 = dump_gnuplot print_real s).
Proof.
  assert (forall s0, dump_gnuplot print_real s0
                     = emitted print_real (m_pivots s0)) as H.
  { intros s0. unfold dump_gnuplot, emitted, splot_line, f_line, e0_line.
    cbv zeta. rewrite dump_loop_blocks, firstn_all by lia.
    now rewrite !string_app_assoc. }
  split; [apply H | split].
  - intros E. rewrite H, E. reflexivity.
  - intros s2 E. now rewrite !H, E.
Qed.

Example dump_gnuplot_two_pivots :
  dump_gnuplot (fun _ => "<r>"%string)
    {| m_grid_size := 1; m_iters := 2; m_ek := array2d_new 2 2;
       m_coeff := [];
       m_pivots := [real2.make 0 0; real2.make 1 1] |}
  = "f(x,y)=sin((1-x)/2*acos((1+y)/2))/sqrt(1-((y+1)/2)**2)
e0(x,y)=f(x,y)
x1=<r>
y1=<r>
d1=e0(x1,y1)
e1(x,y)=e0(x,y)-e0(x1,y)*e0(x,y1)/d1
x2=<r>
y2=<r>
d2=e1(x2,y2)
e2(x,y)=e1(x,y)-e1(x2,y)*e1(x,y2)/d2
splot [-1:1][-1:1] e2(x,y)
"%string.
Proof. reflexivity. Qed.

(** * Further properties of the solver *)

(** ** Shape of the candidate grid *)

Lemma nth_initial_coeff (n iters i : Z) :
  (0 <= i <= n)%Z ->
  nth (Z.to_nat i) (m_coeff (initial_solver n iters)) 0 = cheb_val i n.
Proof.
  intros Hi. cbn [initial_solver m_coeff].
  set (g := fun i0 : nat => cheb_val (Z.of_nat i0) n).
  rewrite (nth_indep _ 0 (g O)) by (rewrite length_map, length_seq; lia).
  rewrite map_nth, seq_nth by lia. unfold g. cbn [Nat.add].
  now rewrite Z2Nat.id by lia.
Qed.

Lemma cheb_val_lt (n i j : Z) :
  (1 <= n)%Z -> (0 <= i < j)%Z -> (j <= n)%Z -> cheb_val i n < cheb_val j n.
Proof.
  intros Hn Hij Hj. unfold cheb_val.
  assert (0 < IZR n) as Hn' by (apply IZR_lt; lia).
  assert (0 <= IZR i) as Hi0 by (apply IZR_le; lia).
  assert (IZR i < IZR j) as Hlt by (apply IZR_lt; lia).
  assert (IZR j <= IZR n) as Hjn by (apply IZR_le; lia).
  pose proof PI_RGT_0 as Hpi.
  assert (forall a, PI * a / IZR n = PI * (a / IZR n)) as Er
    by (intros; field; lra).
  assert (0 <= IZR i / IZR n) as H1.
  { apply Rle_mult_inv_pos; lra. }
  assert (IZR i / IZR n < IZR j / IZR n) as H2.
  { unfold Rdiv. apply Rmult_lt_compat_r; [now apply Rinv_0_lt_compat | lra]. }
  assert (IZR j / IZR n <= 1) as H3.
  { pose proof (Rinv_0_lt_compat _ Hn') as Ht.
    assert (IZR n * / IZR n = 1) as Hinv by (apply Rinv_r; lra).
    unfold Rdiv. nra. }
  assert (cos (PI * IZR j / IZR n) < cos (PI * IZR i / IZR n)) as Hc.
  { rewrite !Er. apply cos_decreasing_1; nra. }
  pose proof lit_bound. nra.
Qed.

Lemma initial_coeff_NoDup (n iters : Z) :
  (1 <= n)%Z -> NoDup (m_coeff (initial_solver n iters)).
Proof.
  intros Hn. apply (NoDup_nth _ 0). intros i j Hi Hj E.
  cbn [initial_solver m_coeff] in Hi, Hj.
  rewrite length_map, length_seq in Hi, Hj.
  rewrite <- (Nat2Z.id i), <- (Nat2Z.id j) in E.
  rewrite !nth_initial_coeff in E by lia.
  destruct (Nat.lt_total i j) as [H | [H | H]]; [ | exact H | ].
  - pose proof (cheb_val_lt n (Z.of_nat i) (Z.of_nat j) Hn
                  ltac:(lia) ltac:(lia)). lra.
  - pose proof (cheb_val_lt n (Z.of_nat j) (Z.of_nat i) Hn
                  ltac:(lia) ltac:(lia)). lra.
Qed.

(** For [grid_size = n], [n >= 1], the candidate grid is strictly
    increasing and runs from [-0.999999999999999] to [0.999999999999999];
    in particular no node occurs twice. *)
Theorem grid_is_strictly_increasing (n iters : Z) :
  (1 <= n < INT_MAX)%Z ->
  exists s,
    solver_new n iters = Ok s /\
    (forall i j, (0 <= i < j)%Z -> (j <= n)%Z ->
                 nth (Z.to_nat i) (m_coeff s) 0 < nth (Z.to_nat j) (m_coeff s) 0) /\
    nth O (m_coeff s) 0 = - lit_0_999999999999999 /\
    nth (Z.to_nat n) (m_coeff s) 0 = lit_0_999999999999999 /\
    NoDup (m_coeff s).
Proof.
  intros Hn. exists (initial_solver n iters).
  split; [apply solver_new_initial; lia | ].
  assert (IZR n <> 0) as Hn' by (apply not_0_IZR; lia).
  split; [ | split; [ | split]].
  - intros i j Hij Hj. rewrite !nth_initial_coeff by lia.
    apply cheb_val_lt; lia.
  - change O with (Z.to_nat 0). rewrite nth_initial_coeff by lia.
    unfold cheb_val. replace (PI * 0 / IZR n) with 0.
    + rewrite cos_0. ring.
    + unfold Rdiv. ring.
  - rewrite nth_initial_coeff by lia.
    unfold cheb_val. replace (PI * IZR n / IZR n) with PI by now field.
    rewrite cos_PI. ring.
  - apply initial_coeff_NoDup. lia.
Qed.

Lemma grid_is_strictly_increasing_witness :
  exists s,
    solver_new 2 1 = Ok s /\
    (forall i j, (0 <= i < j)%Z -> (j <= 2)%Z ->
                 nth (Z.to_nat i) (m_coeff s) 0 < nth (Z.to_nat j) (m_coeff s) 0) /\
    nth O (m_coeff s) 0 = - lit_0_999999999999999 /\
    nth (Z.to_nat 2) (m_coeff s) 0 = lit_0_999999999999999 /\
    NoDup (m_coeff s).
Proof.
  apply (grid_is_strictly_increasing 2 1). unfold INT_MAX. lia.
Defined.

(** ** The target function: domain and sign *)

Lemma f_dom_wide (y : R) : -3 < y < 1 -> f_dom y.
Proof.
  intros Hy. unfold f_dom. apply Rgt_not_eq, sqrt_lt_R0. nra.
Qed.

(** [f(x, y)] is defined for every [x] when [-3 < y < 1], that is when the
    argument [d = (y + 1) / 2] of [acos] and of the square root lies
    strictly between [-1] and [1]; at the two ends [y = 1] and [y = -3] the
    square root is zero and [f] fails with the division error.  [f] is
    strictly positive on the open square [(-1, 1) x (-1, 1)], where the grid
    lies, and it is zero on the edge [x = 1]. *)
Theorem target_function_domain_and_sign (x y : R) :
  (-3 < y < 1 -> f x y = Ok (fval x y)) /\
  (y = 1 \/ y = -3 -> f x y = Err DivisionByZero) /\
  (-1 < x < 1 -> -1 < y < 1 -> exists v, f x y = Ok v /\ 0 < v) /\
  (-3 < y < 1 -> f 1 y = Ok 0).
Proof.
  split; [ | split; [ | split]].
  - intros Hy. now apply f_defined, f_dom_wide.
  - intros Hy. apply f_undefined. unfold f_dom. intros Hd. apply Hd.
    destruct Hy as [-> | ->].
    + replace (1 - (1 + 1) / 2 * ((1 + 1) / 2)) with 0 by field.
      apply sqrt_0.
    + replace (1 - (-3 + 1) / 2 * ((-3 + 1) / 2)) with 0 by field.
      apply sqrt_0.
  - intros Hx Hy. exists (fval x y). split.
    + now apply f_defined, f_dom_open.
    + now apply fval_pos.
  - intros Hy. rewrite f_defined by now apply f_dom_wide.
    f_equal. unfold fval.
    replace ((1 - (1 + 1) / 2) * acos ((y + 1) / 2)) with 0 by field.
    rewrite sin_0. unfold Rdiv. ring.
Qed.

(** A solver with at least two grid nodes and room for one pivot always
    completes its first step: the pivot search returns a pair of grid nodes
    at which [f], strictly positive there, is largest among the candidate
    pairs, with that value of [f] as residual [v], and the pivot list then
    holds that one pair. *)
Theorem first_step_completes (gs iters : Z) :
  (1 <= gs < INT_MAX)%Z -> (1 <= iters <= INT_MAX)%Z ->
  exists (s0 s1 : solver) (p : real2) (v : R) (w1 w' : world),
    solver_new gs iters = Ok s0 /\
    find_pivot s0 world_init = Ok ((p, v), w1) /\
    In (real2.x p, real2.y p) (scan_pairs s0) /\
    In (real2.x p) (m_coeff s0) /\ In (real2.y p) (m_coeff s0) /\
    f (real2.x p) (real2.y p) = Ok v /\
    0 < v /\
    (forall q, In q (scan_pairs s0) ->
               exists vq, f (fst q) (snd q) = Ok vq /\ 0 < vq <= v) /\
    step s0 world_init = Ok (s1, w') /\
    m_pivots s1 = [p].
Proof.
  intros Hgs Hit.
  destruct (first_step gs iters Hgs Hit)
    as (p & v & w1 & s1 & w' & Hfind & Hv & Hstep).
  pose proof (reach_initial gs iters Hgs ltac:(lia)) as Hr.
  destruct (reach_ok _ _ _ _ _ Hr) as [Hs Hw].
  destruct (runs_unique _ _ _ _ _
              (find_pivot_runs gs iters O _ world_init Hs Hw) Hfind)
    as (_ & _ & Hscan & _).
  destruct (scan_pivot_dom gs iters O _ p v Hs (eq_sym Hscan) Hv)
    as (Hpx & Hpy & Ev).
  rewrite residual_initial in Ev by reflexivity.
  pose proof (solver_ok_coeff gs iters O _ _ Hs Hpx) as Bx.
  pose proof (solver_ok_coeff gs iters O _ _ Hs Hpy) as By.
  pose proof (fval_pos _ _ Bx By) as Hpos. rewrite <- Ev in Hpos.
  destruct (step_inv gs iters O _ s1 world_init w' Hs Hw Hstep)
    as (p0 & v0 & Hscan0 & _ & _ & Hpost & _).
  rewrite <- Hscan in Hscan0. injection Hscan0 as <- <-.
  destruct Hpost as (_ & _ & _ & Hp & _).
  exists (initial_solver gs iters), s1, p, v, w1, w'.
  split; [apply solver_new_initial; lia | ]. split; [exact Hfind | ].
  split.
  { unfold scan_pairs. apply in_flat_map. exists (real2.y p).
    split; [exact Hpy | ]. apply in_map_iff. now exists (real2.x p). }
  split; [exact Hpx | ]. split; [exact Hpy | ].
  split; [rewrite Ev; now apply f_defined, f_dom_open | ].
  split; [exact Hpos | ].
  split; [ | split; [exact Hstep | exact Hp]].
  intros q Hq.
  pose proof (scan_max _ p v q (eq_sym Hscan) Hq) as Hmax.
  rewrite residual_initial in Hmax by reflexivity.
  destruct (scan_pairs_coeff _ q Hq) as [Hqx Hqy].
  pose proof (solver_ok_coeff gs iters O _ _ Hs Hqx) as Cx.
  pose proof (solver_ok_coeff gs iters O _ _ Hs Hqy) as Cy.
  pose proof (fval_pos _ _ Cx Cy) as Hqpos.
  exists (fval (fst q) (snd q)).
  split; [now apply f_defined, f_dom_open | ].
  unfold fabs in Hmax. rewrite !Rabs_pos_eq in Hmax by lra. lra.
Qed.

Lemma first_step_completes_witness :
  exists (s0 s1 : solver) (p : real2) (v : R) (w1 w' : world),
    solver_new 33 6 = Ok s0 /\
    find_pivot s0 world_init = Ok ((p, v), w1) /\
    In (real2.x p, real2.y p) (scan_pairs s0) /\
    In (real2.x p) (m_coeff s0) /\ In (real2.y p) (m_coeff s0) /\
    f (real2.x p) (real2.y p) = Ok v /\
    0 < v /\
    (forall q, In q (scan_pairs s0) ->
               exists vq, f (fst q) (snd q) = Ok vq /\ 0 < vq <= v) /\
    step s0 world_init = Ok (s1, w') /\
    m_pivots s1 = [p].
Proof.
  apply (first_step_completes 33 6); unfold INT_MAX; lia.
Defined.

(** ** Degenerate grid sizes *)

(** With [grid_size = 0] the constructor fails, on the division by [n = 0]
    in [cheb].  With a negative [grid_size] the constructor's loop does not
    run: the grid is empty, the pivot search returns its initial pair
    [(0, 0)] with residual 0 without evaluating anything, and every step
    fails with the division error. *)
Theorem degenerate_grid_sizes (iters : Z) :
  solver_new 0 iters = Err DivisionByZero /\
  forall gs, (gs < 0)%Z ->
    exists s,
      solver_new gs iters = Ok s /\
      m_coeff s = [] /\
      forall w, find_pivot s w = Ok ((real2.make 0 0, 0), w) /\
                step s w = Err DivisionByZero.
Proof.
  split.
  - unfold solver_new. change (Z.to_nat (0 + 1)) with 1%nat.
    cbn [push_nodes rbind]. unfold cheb. now rewrite real_div_zero.
  - intros gs Hgs. unfold solver_new.
    replace (Z.to_nat (gs + 1)) with O by lia. cbn [push_nodes rbind].
    set (s := {| m_grid_size := gs; m_iters := iters;
                 m_ek := array2d_new (Z.to_nat iters) (Z.to_nat iters);
                 m_coeff := []; m_pivots := [] |}).
    exists s. split; [reflexivity | ]. split; [reflexivity | ].
    intros w.
    assert (find_pivot s w = Ok ((real2.make 0 0, 0), w)) as Hfind
      by reflexivity.
    split; [exact Hfind | ].
    unfold step. rewrite (bind_ok _ _ _ _ _ Hfind).
    apply bind_err. unfold lift. now rewrite real_div_zero.
Qed.

(** ** Where the target function is applied *)

Lemma bind_inv {A B : Type} (m : M A) (k : A -> M B) (w w' : world) (b : B) :
  bind m k w = Ok (b, w') ->
  exists a w1, m w = Ok (a, w1) /\ k a w1 = Ok (b, w').
Proof.
  unfold bind. destruct (m w) as [[a w1] | e]; [ | discriminate].
  intros H. now exists a, w1.
Qed.

Lemma calls_within_refl (G : R * R -> Prop) (w : world) : calls_within G w w.
Proof. intros q Hq. now left. Qed.

Lemma calls_within_trans (G : R * R -> Prop) (w1 w2 w3 : world) :
  calls_within G w1 w2 -> calls_within G w2 w3 -> calls_within G w1 w3.
Proof.
  intros H12 H23 q Hq. destruct (H23 q Hq) as [H | H]; auto.
Qed.

Lemma confined_ret {A : Type} (G : R * R -> Prop) (a : A) : confined G (ret a).
Proof.
  intros w a' w' E. unfold ret in E. injection E as _ <-.
  apply calls_within_refl.
Qed.

Lemma confined_lift {A : Type} (G : R * R -> Prop) (r : result A) :
  confined G (lift r).
Proof.
  intros w a' w' E. unfold lift in E. destruct r; [ | discriminate].
  injection E as _ <-. apply calls_within_refl.
Qed.

Lemma confined_bind {A B : Type} (G : R * R -> Prop) (m : M A)
  (k : A -> M B) :
  confined G m -> (forall a, confined G (k a)) -> confined G (bind m k).
Proof.
  intros Hm Hk w b w' E. apply bind_inv in E as (a & w1 & E1 & E2).
  eapply calls_within_trans; [apply (Hm _ _ _ E1) | apply (Hk a _ _ _ E2)].
Qed.

Lemma confined_for_n {S : Type} (G : R * R -> Prop) (n : nat)
  (body : nat -> S -> M S) (acc : S) :
  (forall i a, (i < n)%nat -> confined G (body i a)) ->
  confined G (for_n n body acc).
Proof.
  intros H. induction n as [| n IH]; cbn [for_n].
  - apply confined_ret.
  - apply confined_bind.
    + apply IH. intros i a Hi. apply H. lia.
    + intros a. apply H. lia.
Qed.

Lemma confined_for_each {A S : Type} (G : R * R -> Prop) (l : list A)
  (body : A -> S -> M S) (acc : S) :
  (forall a s, In a l -> confined G (body a s)) ->
  confined G (for_each l body acc).
Proof.
  revert acc. induction l as [| a l IH]; intros acc H; cbn [for_each].
  - apply confined_ret.
  - apply confined_bind.
    + apply H. now left.
    + intros s. apply IH. intros b s' Hb. apply H. now right.
Qed.

Lemma confined_eval_f (G : R * R -> Prop) (self : solver) (x y : R) :
  G (x, y) -> confined G (eval_f self x y).
Proof.
  intros HG w v w' E. unfold eval_f in E.
  destruct (cache_find x y (cache w)) as [v0 | ].
  - injection E as _ <-. apply calls_within_refl.
  - unfold bind, call_f, cache_push in E.
    destruct (f x y) as [v0 | ]; [ | discriminate].
    injection E as _ <-. cbn [f_calls]. intros q Hq.
    apply in_app_or in Hq as [Hq | [<- | []]]; auto.
Qed.

Lemma in_scan_pairs (s : solver) (a b : R) :
  In a (m_coeff s) -> In b (m_coeff s) -> In (a, b) (scan_pairs s).
Proof.
  intros Ha Hb. unfold scan_pairs. apply in_flat_map. exists b.
  split; [exact Hb | ]. apply in_map_iff. now exists a.
Qed.

Lemma confined_eval_ek (gs iters : Z) (k : nat) (s : solver) (x y : R) :
  solver_ok gs iters k s -> In x (m_coeff s) -> In y (m_coeff s) ->
  confined (fun q => In q (scan_pairs s)) (eval_ek s x y).
Proof.
  intros Hs Hx Hy. unfold eval_ek. rewrite (ok_size _ _ _ _ Hs).
  assert (forall i, (i < k)%nat ->
                    In (real2.x (pivot s i)) (m_coeff s) /\
                    In (real2.y (pivot s i)) (m_coeff s)) as Hp.
  { intros i Hi. apply (ok_pivots _ _ _ _ Hs), nth_In.
    now rewrite (ok_size _ _ _ _ Hs). }
  apply confined_bind; [apply confined_eval_f; now apply in_scan_pairs | ].
  intros ret0. apply confined_for_n. intros i ret1 Hi.
  apply confined_for_n. intros j ret2 Hj.
  apply confined_bind; [apply confined_lift | ].
  intros m. destruct (real_nonzero m); [ | apply confined_ret].
  apply confined_bind.
  { apply confined_eval_f, in_scan_pairs; [apply (Hp i Hi) | exact Hy]. }
  intros a. apply confined_bind.
  { apply confined_eval_f, in_scan_pairs; [exact Hx | apply (Hp j Hj)]. }
  intros b. apply confined_ret.
Qed.

Lemma confined_find_pivot (gs iters : Z) (k : nat) (s : solver) :
  solver_ok gs iters k s ->
  confined (fun q => In q (scan_pairs s)) (find_pivot s).
Proof.
  intros Hs. unfold find_pivot.
  apply confined_for_each. intros y best Hy.
  apply confined_for_each. intros x best' Hx.
  unfold scan_body. apply confined_bind.
  - now apply (confined_eval_ek gs iters k s).
  - intros res. destruct (Rge_dec _ _); apply confined_ret.
Qed.

Lemma confined_cross_vectors (gs iters : Z) (k : nat) (s : solver)
  (p : real2) :
  solver_ok gs iters k s ->
  In (real2.x p) (m_coeff s) -> In (real2.y p) (m_coeff s) ->
  confined (fun q => In q (scan_pairs s)) (cross_vectors s p).
Proof.
  intros Hs Hx Hy. unfold cross_vectors. rewrite (ok_size _ _ _ _ Hs).
  assert (forall i, (i < k)%nat ->
                    In (real2.x (pivot s i)) (m_coeff s) /\
                    In (real2.y (pivot s i)) (m_coeff s)) as Hp.
  { intros i Hi. apply (ok_pivots _ _ _ _ Hs), nth_In.
    now rewrite (ok_size _ _ _ _ Hs). }
  apply confined_bind; [ | intros v; apply confined_ret].
  apply confined_for_n. intros i v1 Hi.
  apply confined_for_n. intros j v2 Hj.
  unfold cross_body.
  apply confined_bind; [apply confined_lift | ].
  intros m. destruct (real_nonzero m); [ | apply confined_ret].
  apply confined_bind.
  { apply confined_eval_f, in_scan_pairs; [apply (Hp i Hi) | exact Hy]. }
  intros a. apply confined_bind; [apply confined_lift | ].
  intros m'. apply confined_bind.
  { apply confined_eval_f, in_scan_pairs; [exact Hx | apply (Hp j Hj)]. }
  intros b. apply confined_ret.
Qed.

Lemma confined_update_ek (G : R * R -> Prop) (size : nat) (ek_x ek_y : list R)
  (dk : R) (m : array2d) :
  confined G (update_ek size ek_x ek_y dk m).
Proof.
  unfold update_ek. apply confined_for_n. intros i m1 _.
  apply confined_for_n. intros j m2 _. unfold update_body.
  apply confined_bind; [apply confined_lift | intros old; apply confined_lift].
Qed.

(** A step applies [f] at pairs of grid nodes only. *)
Lemma step_calls_within (gs iters : Z) (k : nat) (s s' : solver)
  (w w' : world) :
  solver_ok gs iters k s -> cache_ok w -> step s w = Ok (s', w') ->
  calls_within (fun q => In q (scan_pairs s)) w w'.
Proof.
  intros Hs Hw E. unfold step in E.
  apply bind_inv in E as ([p v] & w1 & E1 & E).
  apply bind_inv in E as (dk & w2 & E2 & E).
  apply bind_inv in E as ([ek_x ek_y] & w3 & E3 & E).
  apply bind_inv in E as (ek & w4 & E4 & E).
  unfold ret in E. injection E as _ <-.
  destruct (runs_unique _ _ _ _ _ (find_pivot_runs gs iters k s w Hs Hw) E1)
    as (_ & _ & Hscan & _).
  assert (v <> 0) as Hv.
  { intros ->. unfold lift in E2. rewrite real_div_zero in E2. discriminate. }
  destruct (scan_pivot_dom gs iters k s p v Hs (eq_sym Hscan) Hv)
    as (Hpx & Hpy & _).
  eapply calls_within_trans;
    [apply (confined_find_pivot gs iters k s Hs _ _ _ E1) | ].
  eapply calls_within_trans; [apply (confined_lift _ _ _ _ _ E2) | ].
  eapply calls_within_trans;
    [apply (confined_cross_vectors gs iters k s p Hs Hpx Hpy _ _ _ E3) | ].
  apply (confined_update_ek _ _ _ _ _ _ _ _ _ E4).
Qed.

Lemma stepped_reach (gs iters : Z) (k : nat) (s : solver) (w : world) :
  stepped gs iters k s w -> reach gs iters k s w.
Proof.
  induction 1 as [s Hpar Hnew | k s s' w w' _ IH E].
  - apply reach_new; [exact Hpar | exact Hnew | constructor].
  - now apply (reach_step gs iters k s s' w w').
Qed.

Lemma step_keeps_coeff (gs iters : Z) (k : nat) (s s' : solver)
  (w w' : world) :
  reach gs iters k s w -> step s w = Ok (s', w') -> m_coeff s' = m_coeff s.
Proof.
  intros Hr E. destruct (reach_ok _ _ _ _ _ Hr) as [Hs Hw].
  destruct (step_inv gs iters k s s' w w' Hs Hw E)
    as (p & v & _ & _ & _ & Hpost & _).
  apply Hpost.
Qed.

Lemma stepped_calls_on_grid (gs iters : Z) (k : nat) (s : solver) (w : world) :
  stepped gs iters k s w ->
  forall q, In q (f_calls w) -> In q (scan_pairs s).
Proof.
  induction 1 as [s Hpar Hnew | k s s' w w' Hst IH E].
  - intros q [].
  - pose proof (stepped_reach _ _ _ _ _ Hst) as Hr.
    destruct (reach_ok _ _ _ _ _ Hr) as [Hs Hw].
    assert (scan_pairs s' = scan_pairs s) as Es.
    { unfold scan_pairs. now rewrite (step_keeps_coeff gs iters k s s' w w'). }
    rewrite Es. intros q Hq.
    destruct (step_calls_within gs iters k s s' w w' Hs Hw E q Hq); auto.
Qed.

Lemma stepped_grid_seen (gs iters : Z) (k : nat) (s : solver) (w : world) :
  stepped gs iters k s w -> (1 <= k)%nat ->
  forall q, In q (scan_pairs s) -> In q (f_calls w).
Proof.
  destruct 1 as [s Hpar Hnew | k s s' w w' Hst E]; [lia | ]. intros _.
  pose proof (stepped_reach _ _ _ _ _ Hst) as Hr.
  destruct (reach_ok _ _ _ _ _ Hr) as [Hs Hw].
  assert (scan_pairs s' = scan_pairs s) as Es.
  { unfold scan_pairs. now rewrite (step_keeps_coeff gs iters k s s' w w'). }
  rewrite Es.
  destruct (step_inv gs iters k s s' w w' Hs Hw E)
    as (p & v & Hscan & Hv & Hk & _).
  destruct (runs_unique _ _ _ _ _
              (step_runs gs iters k s w p v Hs Hw Hscan Hv Hk) E)
    as (_ & _ & _ & _ & Hseen).
  exact Hseen.
Qed.

Lemma product_NoDup (l1 l2 : list R) :
  NoDup l1 -> NoDup l2 ->
  NoDup (flat_map (fun y => map (fun x => (x, y)) l1) l2).
Proof.
  intros H1 H2. induction H2 as [| b l2 Hb H2 IH]; cbn [flat_map].
  - constructor.
  - apply NoDup_app; [ | exact IH | ].
    + apply NoDup_map_NoDup_ForallPairs; [ | exact H1].
      intros a a' _ _ E. now injection E.
    + intros q Hq Hq'. apply in_map_iff in Hq as (a & <- & _).
      apply in_flat_map in Hq' as (b' & Hb' & Hq').
      apply in_map_iff in Hq' as (a' & E & _). injection E as _ ->.
      contradiction.
Qed.

Lemma solver_ok_coeff_NoDup (gs iters : Z) (k : nat) (s : solver) :
  solver_ok gs iters k s -> NoDup (m_coeff s).
Proof.
  intros Hs. pose proof (ok_coeff _ _ _ _ Hs) as H.
  destruct (Z_lt_le_dec gs 1) as [Hlt | Hge].
  - destruct (Z.eq_dec gs 0) as [-> | Hne].
    + change (Z.to_nat (0 + 1)) with 1%nat in H. cbn [push_nodes rbind] in H.
      unfold cheb in H. rewrite real_div_zero in H. discriminate.
    + replace (Z.to_nat (gs + 1)) with O in H by lia. cbn in H.
      injection H as <-. constructor.
  - rewrite push_nodes_defined in H by lia. injection H as <-.
    apply (initial_coeff_NoDup gs iters). lia.
Qed.

Lemma NoDup_app_disjoint {A : Type} (l1 l2 : list A) (a : A) :
  NoDup (l1 ++ l2) -> In a l1 -> In a l2 -> False.
Proof.
  induction l1 as [| b l1 IH]; cbn [app]; intros Hnd H1 H2; [destruct H1 | ].
  inversion Hnd as [| ? ? Hb Hnd']; subst.
  destruct H1 as [-> | H1].
  - apply Hb, in_or_app. now right.
  - now apply IH.
Qed.

Lemma stepped_step_is_cached (gs iters : Z) (k : nat) (s s' : solver)
  (w w' : world) :
  stepped gs iters k s w -> (1 <= k)%nat -> step s w = Ok (s', w') -> w' = w.
Proof.
  intros Hst Hk E. pose proof (stepped_reach _ _ _ _ _ Hst) as Hr.
  destruct (reach_ok _ _ _ _ _ Hr) as [Hs Hw].
  destruct (step_inv gs iters k s s' w w' Hs Hw E)
    as (p & v & _ & _ & _ & _ & _ & Hw' & [[lc Hc] [lf Hf]]).
  assert (lf = []) as ->.
  { destruct lf as [| q lf]; [reflexivity | exfalso].
    assert (In q (f_calls w')) as Hq.
    { rewrite Hf. apply in_or_app. right. now left. }
    assert (In q (f_calls w)) as Hq0.
    { destruct (step_calls_within gs iters k s s' w w' Hs Hw E q Hq) as [H | H];
        [exact H | ].
      now apply (stepped_grid_seen gs iters k s w Hst Hk). }
    destruct Hw' as (_ & _ & Hnd). rewrite Hf in Hnd.
    apply (NoDup_app_disjoint _ _ q Hnd Hq0). now left. }
  rewrite app_nil_r in Hf.
  assert (lc = []) as ->.
  { destruct Hw as (_ & Hk0 & _), Hw' as (_ & Hk1 & _).
    rewrite Hc, map_app, Hk0, Hf in Hk1.
    apply (f_equal (@length (R * R))) in Hk1.
    rewrite length_app, length_map in Hk1.
    destruct lc; [reflexivity | cbn in Hk1; lia]. }
  rewrite app_nil_r in Hc.
  destruct w, w'. cbn in Hc, Hf. now subst.
Qed.

Lemma stepped_call_bound (gs iters : Z) (k : nat) (s : solver) (w : world) :
  stepped gs iters k s w ->
  (length (f_calls w) <= Z.to_nat (gs + 1) * Z.to_nat (gs + 1))%nat /\
  ((1 <= k)%nat ->
   length (f_calls w) = (Z.to_nat (gs + 1) * Z.to_nat (gs + 1))%nat).
Proof.
  intros Hst. pose proof (stepped_reach _ _ _ _ _ Hst) as Hr.
  destruct (reach_ok _ _ _ _ _ Hr) as [Hs (_ & _ & Hnd)].
  pose proof (stepped_calls_on_grid gs iters k s w Hst) as Hin.
  assert (length (scan_pairs s)
          = (Z.to_nat (gs + 1) * Z.to_nat (gs + 1))%nat) as Hlen.
  { now rewrite scan_pairs_length, (solver_ok_coeff_length gs iters k s Hs). }
  rewrite <- Hlen.
  assert (length (f_calls w) <= length (scan_pairs s))%nat as Hle
    by now apply NoDup_incl_length.
  split; [exact Hle | ].
  intros Hk. apply Nat.le_antisymm; [exact Hle | ].
  apply NoDup_incl_length.
  - apply product_NoDup; now apply (solver_ok_coeff_NoDup gs iters k s).
  - intros q Hq. now apply (stepped_grid_seen gs iters k s w Hst Hk).
Qed.

(** In a run of the driver, one solver stepped from the empty cache, [f] is
    applied only at pairs of grid nodes and never twice at the same pair, so
    at most [(grid_size + 1)^2] times in all, the cache holding one entry
    per application.  The pivot search of the first step applies it at each
    of these pairs; from then on the count is exactly [(grid_size + 1)^2]
    and a step leaves the cache as it found it. *)
Theorem driver_applies_f_once_per_grid_pair (gs iters : Z) (k : nat)
  (s : solver) (w : world) :
  stepped gs iters k s w ->
  NoDup (f_calls w) /\
  length (cache w) = length (f_calls w) /\
  (forall q, In q (f_calls w) -> In q (scan_pairs s)) /\
  (length (f_calls w) <= Z.to_nat (gs + 1) * Z.to_nat (gs + 1))%nat /\
  ((1 <= k)%nat ->
   length (f_calls w) = (Z.to_nat (gs + 1) * Z.to_nat (gs + 1))%nat /\
   forall s' w', step s w = Ok (s', w') -> w' = w).
Proof.
  intros Hst. pose proof (stepped_reach _ _ _ _ _ Hst) as Hr.
  destruct (reach_ok _ _ _ _ _ Hr) as [Hs Hw].
  pose proof Hw as (_ & Hkeys & Hnd).
  destruct (stepped_call_bound gs iters k s w Hst) as [Hle Heq].
  split; [exact Hnd | ]. split; [now rewrite <- Hkeys, length_map | ].
  split; [now apply (stepped_calls_on_grid gs iters k s w) | ].
  split; [exact Hle | ].
  intros Hk. split; [now apply Heq | ].
  intros s' w' E. now apply (stepped_step_is_cached gs iters k s s' w w').
Qed.

Lemma driver_applies_f_once_per_grid_pair_witness :
  exists (s : solver) (w : world),
    stepped 33 6 1 s w /\
    (1 <= 1)%nat /\
    NoDup (f_calls w) /\
    length (cache w) = length (f_calls w) /\
    (forall q, In q (f_calls w) -> In q (scan_pairs s)) /\
    length (f_calls w) = (Z.to_nat (33 + 1) * Z.to_nat (33 + 1))%nat /\
    (forall s' w', step s w = Ok (s', w') -> w' = w).
Proof.
  destruct (first_step_state 33 6 ltac:(unfold INT_MAX; lia)
              ltac:(unfold INT_MAX; lia))
    as (_ & _ & _ & s1 & w1 & _ & _ & _ & _ & Hst & _).
  destruct (driver_applies_f_once_per_grid_pair 33 6 1 s1 w1 Hst)
    as (Hnd & Hlen & Hgrid & _ & Hfull).
  assert (1 <= 1)%nat as Hk by lia.
  destruct (Hfull Hk) as [Hcount Hsame].
  exists s1, w1.
  split; [exact Hst | ]. split; [exact Hk | ]. split; [exact Hnd | ].
  split; [exact Hlen | ]. split; [exact Hgrid | ].
  split; [exact Hcount | exact Hsame].
Defined.

(** ** main *)

Lemma step_error_within_capacity (gs iters : Z) (k : nat) (s : solver)
  (w : world) (e : error) :
  reach gs iters k s w -> (k < Z.to_nat iters)%nat -> step s w = Err e ->
  e = DivisionByZero.
Proof.
  intros Hr Hk E. destruct (reach_ok _ _ _ _ _ Hr) as [Hs Hw].
  destruct (scan s) as [p v] eqn:Hscan.
  destruct (Req_dec_T v 0) as [-> | Hv].
  - rewrite (step_div_error gs iters k s w p Hs Hw Hscan) in E.
    now injection E.
  - destruct (step_runs gs iters k s w p v Hs Hw Hscan Hv Hk)
      as (s' & w' & E' & _).
    rewrite E' in E. discriminate.
Qed.

Lemma run_steps_stepped (gs iters : Z) (n k : nat) (s : solver) (w : world) :
  stepped gs iters k s w -> (k + n <= Z.to_nat iters)%nat ->
  (forall e, for_n n (fun _ s0 => step s0) s w = Err e ->
             e = DivisionByZero) /\
  (forall s' w', for_n n (fun _ s0 => step s0) s w = Ok (s', w') ->
                 stepped gs iters (k + n) s' w').
Proof.
  intros Hst. induction n as [| n IH]; intros Hn; cbn [for_n].
  - split; [discriminate | ].
    intros s' w' E. unfold ret in E. injection E as <- <-.
    now rewrite Nat.add_0_r.
  - destruct IH as [IHe IHo]; [lia | ]. unfold bind.
    destruct (for_n n (fun _ s0 => step s0) s w) as [[s1 w1] | e1] eqn:E1.
    + specialize (IHo s1 w1 eq_refl). split.
      * intros e E.
        apply (step_error_within_capacity gs iters (k + n) s1 w1 e);
          [now apply stepped_reach | lia | exact E].
      * intros s' w' E. rewrite Nat.add_succ_r.
        now apply (stepped_step gs iters (k + n) s1 s' w1 w').
    + split; [ | discriminate].
      intros e E. injection E as <-. now apply IHe.
Qed.

Lemma stepped_size (gs iters : Z) (k : nat) (s : solver) (w : world) :
  stepped gs iters k s w -> length (m_pivots s) = k.
Proof.
  intros Hst. apply stepped_reach, reach_ok in Hst as [Hs _].
  apply (ok_size _ _ _ _ Hs).
Qed.

Lemma dump_gnuplot_emitted (print_real : R -> string) (s : solver) :
  dump_gnuplot print_real s = emitted print_real (m_pivots s).
Proof.
  unfold dump_gnuplot, emitted, splot_line, f_line, e0_line. cbv zeta.
  rewrite dump_loop_blocks, firstn_all by lia.
  now rewrite !string_app_assoc.
Qed.

(** [main], started on the empty cache, never indexes the coefficient
    matrix outside its bounds: if it fails, it is with the division error of
    a step whose selected residual is zero.  If it returns, the solver has
    completed exactly 6 steps, the text written is the recurrence for its 6
    pivots, ending with the plot of [e6], and [f] has been applied exactly
    [34 * 34 = 1156] times, once per pair of grid nodes.  In either case
    the construction and the first step complete. *)
Theorem main_run (print_real : R -> string) :
  (forall e, main print_real world_init = Err e -> e = DivisionByZero) /\
  (forall out w,
      main print_real world_init = Ok (out, w) ->
      exists s,
        stepped 33 6 6 s w /\
        length (m_pivots s) = 6%nat /\
        out = emitted print_real (m_pivots s) /\
        length (f_calls w) = 1156%nat) /\
  (exists s0 s1 w1,
      solver_new 33 6 = Ok s0 /\ run_steps 1 s0 world_init = Ok (s1, w1)).
Proof.
  assert (stepped 33 6 O (initial_solver 33 6) world_init) as Hst.
  { apply stepped_new.
    - unfold params_ok, INT_MAX. lia.
    - apply solver_new_initial. lia. }
  destruct (run_steps_stepped 33 6 6 O _ _ Hst) as [He Ho]; [cbn; lia | ].
  assert (forall w, lift (solver_new 33 6) w = Ok (initial_solver 33 6, w))
    as Hnew.
  { intros w. unfold lift. now rewrite solver_new_initial by lia. }
  split; [ | split].
  - intros e E. unfold main in E. cbv zeta in E.
    rewrite (bind_ok _ _ _ _ _ (Hnew world_init)) in E.
    unfold bind, run_steps in E. change (Z.to_nat 6) with 6%nat in E.
    destruct (for_n 6 (fun _ s0 => step s0) (initial_solver 33 6) world_init)
      as [[s' w'] | e'] eqn:E'.
    + discriminate.
    + injection E as <-. now apply He.
  - intros out w E. unfold main in E. cbv zeta in E.
    rewrite (bind_ok _ _ _ _ _ (Hnew world_init)) in E.
    apply bind_inv in E as (s' & w' & E' & E).
    unfold ret in E. injection E as <- <-.
    unfold run_steps in E'. change (Z.to_nat 6) with 6%nat in E'.
    pose proof (Ho s' w' E') as Hst'. cbn [Nat.add] in Hst'.
    exists s'. split; [exact Hst' | ].
    split; [apply (stepped_size 33 6 6 s' w' Hst') | ].
    split; [apply dump_gnuplot_emitted | ].
    destruct (stepped_call_bound 33 6 6 s' w' Hst') as [_ Hlen].
    rewrite Hlen by lia. reflexivity.
  - destruct (first_step 33 6) as (p & v & w1 & s1 & w' & _ & _ & Hstep);
      [unfold INT_MAX; lia | unfold INT_MAX; lia | ].
    exists (initial_solver 33 6), s1, w'.
    split; [apply solver_new_initial; lia | ].
    unfold run_steps. change (Z.to_nat 1) with 1%nat. cbn [for_n].
    unfold bind, ret. exact Hstep.
Qed.

(** The loop of [main], [iters] calls of [step] on a freshly constructed
    solver started on the empty cache, never indexes the coefficient matrix
    outside its bounds: it can only fail with the division error.  When it
    returns, the solver has completed exactly [iters] steps and holds
    [iters] pivots, each of them a pair of nodes of the grid, which is the
    one the constructor built. *)
Theorem driver_loop_outcome (gs iters : Z) (s0 : solver) :
  params_ok gs iters -> solver_new gs iters = Ok s0 ->
  (forall e, run_steps iters s0 world_init = Err e -> e = DivisionByZero) /\
  (forall s w, run_steps iters s0 world_init = Ok (s, w) ->
               stepped gs iters (Z.to_nat iters) s w /\
               length (m_pivots s) = Z.to_nat iters /\
               m_coeff s = m_coeff s0 /\
               forall p, In p (m_pivots s) ->
                         In (real2.x p) (m_coeff s0) /\
                         In (real2.y p) (m_coeff s0)).
Proof.
  intros Hpar Hnew.
  pose proof (stepped_new gs iters s0 Hpar Hnew) as Hst.
  destruct (run_steps_stepped gs iters (Z.to_nat iters) O _ _ Hst)
    as [He Ho]; [lia | ].
  fold (run_steps iters s0) in He, Ho. cbn [Nat.add] in Ho.
  split; [exact He | ].
  intros s w E. specialize (Ho s w E).
  destruct (reach_ok _ _ _ _ _ (stepped_reach _ _ _ _ _ Ho)) as [Hs _].
  pose proof (solver_new_ok gs iters s0 Hnew) as Hs0.
  assert (m_coeff s = m_coeff s0) as Hc.
  { pose proof (ok_coeff _ _ _ _ Hs) as H1.
    pose proof (ok_coeff _ _ _ _ Hs0) as H2.
    rewrite H1 in H2. now injection H2. }
  split; [exact Ho | ]. split; [apply (ok_size _ _ _ _ Hs) | ].
  split; [exact Hc | ].
  intros p Hp. rewrite <- Hc. now apply (ok_pivots _ _ _ _ Hs).
Qed.

Lemma driver_loop_outcome_witness :
  (exists (s : solver) (w : world),
     run_steps 1 (initial_solver 33 1) world_init = Ok (s, w) /\
     stepped 33 1 (Z.to_nat 1) s w /\
     length (m_pivots s) = Z.to_nat 1 /\
     m_coeff s = m_coeff (initial_solver 33 1) /\
     forall p, In p (m_pivots s) ->
               In (real2.x p) (m_coeff (initial_solver 33 1)) /\
               In (real2.y p) (m_coeff (initial_solver 33 1))) /\
  (exists e : error,
     run_steps 1 (initial_solver (-1) 1) world_init = Err e /\
     e = DivisionByZero).
Proof.
  split.
  - destruct (driver_loop_outcome 33 1 (initial_solver 33 1)) as [_ Hok].
    + unfold params_ok, INT_MAX. lia.
    + apply solver_new_initial. lia.
    + destruct (first_step 33 1) as (p & v & w1 & s1 & w' & _ & _ & Hstep);
        [unfold INT_MAX; lia | unfold INT_MAX; lia | ].
      assert (run_steps 1 (initial_solver 33 1) world_init = Ok (s1, w'))
        as Hrun.
      { unfold run_steps. change (Z.to_nat 1) with 1%nat. cbn [for_n].
        unfold bind, ret. exact Hstep. }
      exists s1, w'. split; [exact Hrun | ]. exact (Hok s1 w' Hrun).
  - destruct (driver_loop_outcome (-1) 1 (initial_solver (-1) 1)) as [Herr _].
    + unfold params_ok, INT_MAX. lia.
    + apply solver_new_negative. lia.
    + assert (run_steps 1 (initial_solver (-1) 1) world_init
              = Err DivisionByZero) as Hrun.
      { unfold run_steps. change (Z.to_nat 1) with 1%nat. cbn [for_n].
        unfold bind, ret. now rewrite step_negative by lia. }
      exists DivisionByZero. split; [exact Hrun | ].
      exact (Herr DivisionByZero Hrun).
Defined.
